(** * goblockchain: the ledger engine of [block/blockchain.go]

    A shallow embedding of the Go package [block] (transactions, blocks, the
    transaction pool, proof of work, mining and balances) and the properties
    of it that the specification states.

    Conventions of the embedding:
    - a Go [string] is a [string] (a sequence of bytes), [[32]byte] and
      [[]byte] are [list byte], [int] and [int64] are [Z] with the 64-bit
      wrap-around of [nonce++] written out, [float32] is IEEE 754 binary32
      ([spec_float] at precision 24, maximal exponent 128);
    - a [*Transaction] is an address in a store of transaction objects (the
      [heap]); [NewTransaction] allocates at the first free address and
      nothing ever writes to an allocated object. A ledger of the program
      holds allocated addresses only ([wf]); the operations are defined on
      every world all the same, and reading through an address outside the
      store is the nil dereference;
    - a slice [[]*Transaction] is [option (list ptr)]: [None] is the nil
      slice, which [encoding/json] prints as [null], and [Some []] the empty
      one, printed as [[]];
    - a panic is a result of its own, and so is running out of fuel in the
      one unbounded loop (the nonce search);
    - [time.Now().UnixNano()] is an argument [now] of the operations that
      read the clock;
    - the Go library functions [json.Marshal], [sha256.Sum256] and
      [ecdsa.Verify] are parameters of the development ([Libraries]); the
      examples run it on SHA-256, a JSON encoder and ECDSA on a small
      curve. *)

From Stdlib Require Import ZArith List String Ascii Bool Lia.
From Stdlib Require Import Strings.Byte DecimalString.
From Stdlib Require Import Floats.SpecFloat.
Import ListNotations.

Set Warnings "-register-all".

Local Open Scope string_scope.
Local Open Scope list_scope.
Local Open Scope Z_scope.

(** ** Results of a call *)

Inductive panic : Type :=
| NilDereference
| IndexOutOfRange
| SliceBoundsOutOfRange
| NegativeRepeatCount.

Inductive result (A : Type) : Type :=
| Ok (a : A)
| Panic (p : panic)
| Timeout.

Arguments Ok {A} a.
Arguments Panic {A} p.
Arguments Timeout {A}.

(** ** Machine integers and floats *)

Definition max_int : Z := 2 ^ 63 - 1.
Definition min_int : Z := - 2 ^ 63.

(** Two's complement wrap-around of a 64-bit [int]. *)
Definition wrap64 (z : Z) : Z := (z + 2 ^ 63) mod 2 ^ 64 - 2 ^ 63.

Definition float32 : Type := spec_float.
Definition f32_add : float32 -> float32 -> float32 := SFadd 24 128.
Definition f32_sub : float32 -> float32 -> float32 := SFsub 24 128.
Definition f32_of_Z (z : Z) : float32 := binary_normalize 24 128 z 0 false.
Definition f32_zero : float32 := S754_zero false.

(** The exact value of a float, counted in units of [2^-149], the least
    positive binary32 number: an integer for every valid binary32 value.
    Infinities and NaN have none. *)
Definition f32_units (f : float32) : option Z :=
  match f with
  | S754_zero _ => Some 0
  | S754_finite s m e => Some ((if s then -1 else 1) * Z.pos m * 2 ^ (e + 149))
  | S754_infinity _ | S754_nan => None
  end.

(** ** Strings and bytes *)

Definition hex_digit (n : N) : ascii :=
  match String.get (N.to_nat n) "0123456789abcdef" with
  | Some c => c
  | None => "0"%char
  end.

Definition hex_byte (b : byte) : string :=
  let n := Byte.to_N b in
  String (hex_digit (n / 16)) (String (hex_digit (n mod 16)) EmptyString).

(** [fmt.Sprintf("%x", h)] on a byte array: two lower-case digits a byte. *)
Fixpoint Sprintf_x (bs : list byte) : string :=
  match bs with
  | [] => EmptyString
  | b :: rest => (hex_byte b ++ Sprintf_x rest)%string
  end.

Fixpoint repeat_string (s : string) (n : nat) : string :=
  match n with
  | O => EmptyString
  | S k => (s ++ repeat_string s k)%string
  end.

(** [strings.Repeat]: panics on a negative count. *)
Definition strings_Repeat (s : string) (count : Z) : result string :=
  if count <? 0 then Panic NegativeRepeatCount
  else Ok (repeat_string s (Z.to_nat count)).

(** The slice expression [s[:n]] on a string. *)
Definition string_prefix (s : string) (n : Z) : result string :=
  if (n <? 0) || (Z.of_nat (String.length s) <? n) then Panic SliceBoundsOutOfRange
  else Ok (substring 0 (Z.to_nat n) s).

(** ** Slices *)

Definition slice (A : Type) : Type := option (list A).

Definition elems {A : Type} (s : slice A) : list A :=
  match s with
  | Some l => l
  | None => []
  end.

(** [append(s, x)]: the result is never nil. *)
Definition append {A : Type} (s : slice A) (x : A) : slice A :=
  Some (elems s ++ [x]).

(** ** The values [json.Marshal] is given *)

Inductive JSON : Type :=
| JNull
| JInt (n : Z)
| JFloat32 (f : float32)
| JString (s : string)
| JArray (items : list JSON)
| JObject (fields : list (string * JSON)).

(** ** Data model *)

Definition MiningDifficulty : Z := 3.
Definition MiningSender : string := "THE BLOCKCHAIN".
Definition MiningReward : float32 := Eval cbv in f32_of_Z 1.

Record Transaction : Type := {
  senderBlockchainAddress : string;
  recipientBlockchainAddress : string;
  value : float32
}.

Definition ptr : Type := nat.
Definition Heap : Type := list Transaction.

Definition deref (h : Heap) (p : ptr) : option Transaction := nth_error h p.

Record Block : Type := {
  timestamp : Z;
  nonce : Z;
  previousHash : list byte;
  transactions : slice ptr
}.

(** [chain] is a [[]*Block]; blocks are never written to after [NewBlock]
    and no operation compares block pointers, so the chain holds the block
    values themselves. *)
Record Blockchain : Type := {
  transactionPool : slice ptr;
  chain : list Block;
  blockchainAddress : string;
  port : Z
}.

Record World : Type := {
  heap : Heap;
  ledger : Blockchain
}.

Definition set_heap (h : Heap) (w : World) : World :=
  {| heap := h; ledger := ledger w |}.

Definition set_transactionPool (p : slice ptr) (w : World) : World :=
  {| heap := heap w;
     ledger := {| transactionPool := p;
                  chain := chain (ledger w);
                  blockchainAddress := blockchainAddress (ledger w);
                  port := port (ledger w) |} |}.

Definition set_chain (c : list Block) (w : World) : World :=
  {| heap := heap w;
     ledger := {| transactionPool := transactionPool (ledger w);
                  chain := c;
                  blockchainAddress := blockchainAddress (ledger w);
                  port := port (ledger w) |} |}.

Definition set_port (p : Z) (w : World) : World :=
  {| heap := heap w;
     ledger := {| transactionPool := transactionPool (ledger w);
                  chain := chain (ledger w);
                  blockchainAddress := blockchainAddress (ledger w);
                  port := p |} |}.

(** ** The monad of the methods of [*Blockchain]: state and panics *)

Definition M (A : Type) : Type := World -> result (A * World).

Definition ret {A : Type} (a : A) : M A := fun w => Ok (a, w).

Definition bind {A B : Type} (m : M A) (k : A -> M B) : M B :=
  fun w =>
    match m w with
    | Ok (a, w') => k a w'
    | Panic p => Panic p
    | Timeout => Timeout
    end.

Definition lift {A : Type} (f : World -> result A) : M A :=
  fun w =>
    match f w with
    | Ok a => Ok (a, w)
    | Panic p => Panic p
    | Timeout => Timeout
    end.

Definition gets {A : Type} (f : World -> A) : M A := fun w => Ok (f w, w).
Definition modify (f : World -> World) : M unit := fun w => Ok (tt, f w).

Notation "x <- m ;; k" := (bind m (fun x => k))
  (at level 61, m at next level, right associativity).
Notation "m ;;; k" := (bind m (fun _ => k))
  (at level 61, right associativity).

(** [*t] for a [*Transaction]. *)
Definition load (h : Heap) (p : ptr) : result Transaction :=
  match deref h p with
  | Some t => Ok t
  | None => Panic NilDereference
  end.

(** ** Transactions *)

(** [NewTransaction]: a new object, at the first free address. *)
Definition NewTransaction (sender recipient : string) (v : float32) : M ptr :=
  fun w =>
    Ok (List.length (heap w),
        set_heap (heap w ++ [ {| senderBlockchainAddress := sender;
                                 recipientBlockchainAddress := recipient;
                                 value := v |} ]) w).

(** The struct [Transaction.MarshalJSON] hands to [json.Marshal]. *)
Definition Transaction_json (t : Transaction) : JSON :=
  JObject [ ("sender_blockchain_address", JString (senderBlockchainAddress t));
            ("recipient_blockchain_address", JString (recipientBlockchainAddress t));
            ("value", JFloat32 (value t)) ].

(** What [json.Marshal] makes of a [*Transaction]: [null] for nil, else what
    its [MarshalJSON] returns. *)
Definition ptr_json (h : Heap) (p : ptr) : JSON :=
  match deref h p with
  | Some t => Transaction_json t
  | None => JNull
  end.

Definition slice_json (h : Heap) (s : slice ptr) : JSON :=
  match s with
  | None => JNull
  | Some l => JArray (map (ptr_json h) l)
  end.

(** The struct [Block.MarshalJSON] hands to [json.Marshal]. *)
Definition Block_json (h : Heap) (b : Block) : JSON :=
  JObject [ ("timestamp", JInt (timestamp b));
            ("nonce", JInt (nonce b));
            ("previous_hash", JString (Sprintf_x (previousHash b)));
            ("transaction", slice_json h (transactions b)) ].

Definition NewBlock (now : Z) (nonce : Z) (previousHash : list byte)
    (transactions : slice ptr) : Block :=
  {| timestamp := now;
     nonce := nonce;
     previousHash := previousHash;
     transactions := transactions |}.

(** ** FIPS 180-4 SHA-256, to run the ledger on *)

Module SHA256.

(** The constants are bits of roots of the first primes: *)
Definition is_prime (n : nat) : bool :=
  forallb (fun d => negb (Nat.eqb (n mod d) 0)) (seq 2 (n - 2)).

Definition primes : list Z := map Z.of_nat (filter is_prime (seq 2 310)).

(** the integer part of the cube root of [n], for [n] below [2^105], *)
Definition cube_root (n : Z) : Z :=
  fold_left (fun r i => let r' := r + 2 ^ Z.of_nat i in
                        if r' * r' * r' <=? n then r' else r)
    (rev (seq 0 35)) 0.

(** for [K] the first 32 bits of the fractional parts of the cube roots of
    the first 64 primes, *)
Definition K : list Z :=
  Eval vm_compute in map (fun p => cube_root (p * 2 ^ 96) mod 2 ^ 32) primes.

Definition digest : Type := (Z * Z * Z * Z * Z * Z * Z * Z)%type.

(** and for the initial hash value the same of the square roots of the
    first 8. *)
Definition H0 : digest :=
  Eval vm_compute in
    match map (fun p => Z.sqrt (p * 2 ^ 64) mod 2 ^ 32) (firstn 8 primes) with
    | [a; b; c; d; e; f; g; h] => (a, b, c, d, e, f, g, h)
    | _ => (0, 0, 0, 0, 0, 0, 0, 0)
    end.

Definition w32 (z : Z) : Z := Z.land z 0xffffffff.
Definition add32 (x y : Z) : Z := w32 (x + y).
Definition rotr (n x : Z) : Z := Z.lor (Z.shiftr x n) (w32 (Z.shiftl x (32 - n))).
Definition Ch (x y z : Z) : Z :=
  Z.lxor (Z.land x y) (Z.land (Z.lxor x 0xffffffff) z).
Definition Maj (x y z : Z) : Z :=
  Z.lxor (Z.lxor (Z.land x y) (Z.land x z)) (Z.land y z).
Definition Sigma0 (x : Z) : Z := Z.lxor (Z.lxor (rotr 2 x) (rotr 13 x)) (rotr 22 x).
Definition Sigma1 (x : Z) : Z := Z.lxor (Z.lxor (rotr 6 x) (rotr 11 x)) (rotr 25 x).
Definition sigma0 (x : Z) : Z := Z.lxor (Z.lxor (rotr 7 x) (rotr 18 x)) (Z.shiftr x 3).
Definition sigma1 (x : Z) : Z := Z.lxor (Z.lxor (rotr 17 x) (rotr 19 x)) (Z.shiftr x 10).

Definition Z_of_byte (b : byte) : Z := Z.of_N (Byte.to_N b).

Definition byte_of_Z (z : Z) : byte :=
  match Byte.of_N (Z.to_N (Z.land z 0xff)) with
  | Some b => b
  | None => x00
  end.

(** The message, the bit [1], zeros up to 56 bytes modulo 64, and the
    length in bits as a big-endian 64-bit number. *)
Definition be_bytes (n : nat) (z : Z) : list byte :=
  map (fun i => byte_of_Z (Z.shiftr z (8 * Z.of_nat i))) (rev (seq 0 n)).

Definition pad (msg : list byte) : list byte :=
  let len := Z.of_nat (List.length msg) in
  let zeros := Z.to_nat ((55 - len) mod 64) in
  msg ++ x80 :: repeat x00 zeros ++ be_bytes 8 (8 * len).

(** Big-endian 32-bit words. *)
Fixpoint words (bs : list byte) : list Z :=
  match bs with
  | a :: b :: c :: d :: rest =>
      (Z.shiftl (Z_of_byte a) 24 + Z.shiftl (Z_of_byte b) 16
       + Z.shiftl (Z_of_byte c) 8 + Z_of_byte d) :: words rest
  | _ => []
  end.

(** The message schedule, latest word first: [n] more words after [ws]. *)
Fixpoint schedule (n : nat) (ws : list Z) : list Z :=
  match n with
  | O => ws
  | S k =>
      let w := add32 (add32 (sigma1 (nth 1 ws 0)) (nth 6 ws 0))
                     (add32 (sigma0 (nth 14 ws 0)) (nth 15 ws 0)) in
      schedule k (w :: ws)
  end.

Definition round (s : digest) (kw : Z * Z) : digest :=
  let '(a, b, c, d, e, f, g, h) := s in
  let t1 := add32 (add32 (add32 h (Sigma1 e)) (add32 (Ch e f g) (fst kw))) (snd kw) in
  let t2 := add32 (Sigma0 a) (Maj a b c) in
  (add32 t1 t2, a, b, c, add32 d t1, e, f, g).

(** One 16-word block into the chaining value. *)
Definition compress (s : digest) (block : list Z) : digest :=
  let w := rev (schedule 48 (rev block)) in
  let '(a, b, c, d, e, f, g, h) := fold_left round (combine K w) s in
  let '(a0, b0, c0, d0, e0, f0, g0, h0) := s in
  (add32 a0 a, add32 b0 b, add32 c0 c, add32 d0 d,
   add32 e0 e, add32 f0 f, add32 g0 g, add32 h0 h).

Fixpoint blocks (n : nat) (ws : list Z) (s : digest) : digest :=
  match n with
  | O => s
  | S k => blocks k (skipn 16 ws) (compress s (firstn 16 ws))
  end.

Definition Sum256 (msg : list byte) : list byte :=
  let ws := words (pad msg) in
  let '(a, b, c, d, e, f, g, h) := blocks (List.length ws / 16) ws H0 in
  be_bytes 4 a ++ be_bytes 4 b ++ be_bytes 4 c ++ be_bytes 4 d ++
  be_bytes 4 e ++ be_bytes 4 f ++ be_bytes 4 g ++ be_bytes 4 h.

End SHA256.

(** ** A compact JSON encoder, to run the ledger on

    It prints what [encoding/json] prints for integers, for strings of
    printable ASCII and for [float32] values that are whole numbers below
    [2^24]. It differs where Go's output depends on more than the model
    holds: other floats are printed in full (Go prints the shortest decimal
    that reads back as the same float, and switches to an exponent below
    [1e-6] and from [1e21] on), and bytes from 128 on are copied (Go
    replaces invalid UTF-8). *)

Module Encoding.

Definition quote : string := String (ascii_of_nat 34) EmptyString.
Definition backslash : string := String (ascii_of_nat 92) EmptyString.

Definition decimal (z : Z) : string := NilZero.string_of_int (Z.to_int z).

Definition escape_char (c : ascii) : string :=
  let n := N_of_ascii c in
  if (n =? 34)%N then (backslash ++ quote)%string
  else if (n =? 92)%N then (backslash ++ backslash)%string
  else if (n =? 10)%N then (backslash ++ "n")%string
  else if (n =? 13)%N then (backslash ++ "r")%string
  else if (n =? 9)%N then (backslash ++ "t")%string
  else if ((n <? 32) || (n =? 60) || (n =? 62) || (n =? 38))%N
  then (backslash ++ "u00"
        ++ String (hex_digit (n / 16)) (String (hex_digit (n mod 16)) ""))%string
  else String c "".

Fixpoint escape (s : string) : string :=
  match s with
  | EmptyString => ""
  | String c rest => (escape_char c ++ escape rest)%string
  end.

(** [s] without the zeros it ends in. *)
Fixpoint strip_zeros (s : string) : string :=
  match s with
  | EmptyString => ""
  | String c rest =>
      match strip_zeros rest with
      | EmptyString => if Ascii.eqb c "0" then "" else String c ""
      | rest' => String c rest'
      end
  end.

(** [m * 2^e] in decimal, every digit of it. *)
Definition positive_text (m : Z) (e : Z) : string :=
  if 0 <=? e then decimal (m * 2 ^ e)
  else
    let k := - e in
    let whole := m / 2 ^ k in
    let part := decimal ((m mod 2 ^ k) * 5 ^ k) in
    let digits :=
      (repeat_string "0" (Z.to_nat k - String.length part)%nat ++ part)%string in
    match strip_zeros digits with
    | EmptyString => decimal whole
    | fraction => (decimal whole ++ "." ++ fraction)%string
    end.

Definition float_text (f : float32) : option string :=
  match f with
  | S754_zero s => Some (if s then "-0" else "0")
  | S754_finite s m e =>
      Some ((if s then "-" else "") ++ positive_text (Z.pos m) e)%string
  | S754_infinity _ | S754_nan => None
  end.

Fixpoint encode (v : JSON) : option string :=
  match v with
  | JNull => Some "null"
  | JInt n => Some (decimal n)
  | JFloat32 f => float_text f
  | JString s => Some (quote ++ escape s ++ quote)%string
  | JArray items =>
      let fix go (l : list JSON) (sep : string) : option string :=
        match l with
        | [] => Some ""
        | x :: rest =>
            match encode x, go rest "," with
            | Some a, Some b => Some (sep ++ a ++ b)%string
            | _, _ => None
            end
        end in
      option_map (fun body => "[" ++ body ++ "]")%string (go items "")
  | JObject fields =>
      let fix go (l : list (string * JSON)) (sep : string) : option string :=
        match l with
        | [] => Some ""
        | (k, x) :: rest =>
            match encode x, go rest "," with
            | Some a, Some b =>
                Some (sep ++ quote ++ escape k ++ quote ++ ":" ++ a ++ b)%string
            | _, _ => None
            end
        end in
      option_map (fun body => "{" ++ body ++ "}")%string (go fields "")
  end.

Definition Marshal (v : JSON) : option (list byte) :=
  option_map list_byte_of_string (encode v).

End Encoding.

(** ** ECDSA on a small curve, to run the ledger on

    The curve [y^2 = x^3 + 2x + 2] over the field of 17 elements; the point
    [(5, 1)] generates its group, of prime order 19. [Verify] follows
    [crypto/ecdsa]: [r] and [s] must lie in [[1, N-1]], the digest is cut to
    the bit length of [N], and [r] must be the abscissa of
    [u1 * G + u2 * Q] modulo [N]. Nil pointers panic. *)

Module ECDSA.

Definition P : Z := 17.
Definition A : Z := 2.
Definition N : Z := 19.
Definition G : Z * Z := (5, 1).

(** A point of the curve, [None] the point at infinity. *)
Definition point : Type := option (Z * Z).

(** The inverse modulo a prime [m]. *)
Definition inverse (x m : Z) : Z := ((x mod m) ^ (m - 2)) mod m.

Definition add (p q : point) : point :=
  match p, q with
  | None, _ => q
  | _, None => p
  | Some (x1, y1), Some (x2, y2) =>
      if (x1 =? x2) && ((y1 + y2) mod P =? 0) then None
      else
        let l := if x1 =? x2 then (3 * x1 * x1 + A) * inverse (2 * y1) P
                 else (y2 - y1) * inverse (x2 - x1) P in
        let x3 := (l * l - x1 - x2) mod P in
        Some (x3, (l * (x1 - x3) - y1) mod P)
  end.

Fixpoint mul_pos (k : positive) (p : point) : point :=
  match k with
  | xH => p
  | xO k' => let d := mul_pos k' p in add d d
  | xI k' => let d := mul_pos k' p in add (add d d) p
  end.

Definition mul (k : Z) (p : point) : point :=
  match k with
  | Zpos k' => mul_pos k' p
  | _ => None
  end.

(** [hashToInt]: [N] has 5 bits, so the first byte of the digest, without
    its 3 low bits. *)
Definition hashToInt (hash : list byte) : Z :=
  match hash with
  | [] => 0
  | b :: _ => Z.shiftr (Z.of_N (Byte.to_N b)) 3
  end.

Definition Verify (pub : option (Z * Z)) (hash : list byte) (r s : option Z) :
    result bool :=
  match pub, r, s with
  | Some q, Some r, Some s =>
      if (r <=? 0) || (s <=? 0) || (N <=? r) || (N <=? s) then Ok false
      else
        let e := hashToInt hash in
        let w := inverse s N in
        let u1 := (e * w) mod N in
        let u2 := (r * w) mod N in
        match add (mul u1 (Some G)) (mul u2 (Some q)) with
        | None => Ok false
        | Some (x, _) => Ok (x mod N =? r)
        end
  | _, _, _ => Panic NilDereference
  end.

(** Signing, with the private key [d] and the nonce [k]. *)
Definition Sign (d k : Z) (hash : list byte) : Z * Z :=
  match mul k (Some G) with
  | Some (x, _) =>
      let r := x mod N in (r, (inverse k N * (hashToInt hash + r * d)) mod N)
  | None => (0, 0)
  end.

End ECDSA.

(** ** The package [utils] *)

Module utils.

(** Modelled from the spec: the signature of the wallet subsystem,
    [utils.Signature], whose source is not among the files of [block]. The
    ledger reads its fields [R] and [S] and hands them to [ecdsa.Verify],
    which takes two [*big.Int]; the type [bigInt] of big integers is left
    open. *)
Record Signature (bigInt : Type) : Type := {
  R : option bigInt;
  S : option bigInt
}.

Arguments R {bigInt} _.
Arguments S {bigInt} _.

End utils.

(** ** The Go libraries the ledger calls *)

Class Libraries : Type := {
  (** [json.Marshal] on the value a [MarshalJSON] method builds: the
      encoding, or an error ([None]; a NaN or infinite [float32] is one). *)
  json_Marshal : JSON -> option (list byte);
  (** [sha256.Sum256]. *)
  sha256_Sum256 : list byte -> list byte;
  (** [ecdsa.PublicKey], [big.Int] and [ecdsa.Verify], which may be handed
      nil pointers and panic on them. *)
  PublicKey : Type;
  bigInt : Type;
  ecdsa_Verify :
    option PublicKey -> list byte -> option bigInt -> option bigInt -> result bool
}.

(** ** The ledger *)

Section Ledger.

Context {go : Libraries}.

Definition Signature : Type := utils.Signature bigInt.

(** [m, _ := json.Marshal(v)]: the error is dropped, and [m] is nil then. *)
Definition marshal_or_nil (v : JSON) : list byte :=
  match json_Marshal v with
  | Some m => m
  | None => []
  end.

(** [Block.Hash]. *)
Definition Hash (h : Heap) (b : Block) : list byte :=
  sha256_Sum256 (marshal_or_nil (Block_json h b)).

(** [Blockchain.CreateBlock]. *)
Definition CreateBlock (now : Z) (nonce : Z) (previousHash : list byte) : M Block :=
  pool <- gets (fun w => transactionPool (ledger w)) ;;
  let b := NewBlock now nonce previousHash pool in
  modify (fun w => set_chain (chain (ledger w) ++ [b]) w) ;;;
  modify (set_transactionPool (Some [])) ;;;
  ret b.

(** [NewBlockchain], run on the store [h]: [b := &Block{}] is the zero
    block, [new(Blockchain)] the zero ledger. *)
Definition NewBlockchain (now : Z) (blockchainAddress : string) (port : Z)
    (h : Heap) : result World :=
  let b := {| timestamp := 0; nonce := 0;
              previousHash := repeat x00 32; transactions := None |} in
  let bc := {| transactionPool := None; chain := [];
               blockchainAddress := blockchainAddress; port := 0 |} in
  match CreateBlock now 0 (Hash h b) {| heap := h; ledger := bc |} with
  | Ok (_, w) => Ok (set_port port w)
  | Panic p => Panic p
  | Timeout => Timeout
  end.

(** [Blockchain.LastBlock]: [bc.chain[len(bc.chain)-1]]. *)
Definition LastBlock : M Block :=
  fun w =>
    match rev (chain (ledger w)) with
    | b :: _ => Ok (b, w)
    | [] => Panic IndexOutOfRange
    end.

(** [Blockchain.VerifyTransactionSignature]. The arguments of
    [ecdsa.Verify] are evaluated first: [s.R] panics on a nil [s]. *)
Definition VerifyTransactionSignature (senderPublicKey : option PublicKey)
    (s : option Signature) (t : ptr) : M bool :=
  lift (fun w =>
    let m := marshal_or_nil (ptr_json (heap w) t) in
    let h := sha256_Sum256 m in
    match s with
    | None => Panic NilDereference
    | Some sig => ecdsa_Verify senderPublicKey h (utils.R sig) (utils.S sig)
    end).

(** [Blockchain.AddTransaction] ([log.Println] left out). *)
Definition AddTransaction (sender recipient : string) (v : float32)
    (senderPublicKey : option PublicKey) (s : option Signature) : M bool :=
  t <- NewTransaction sender recipient v ;;
  if String.eqb sender MiningSender then
    modify (fun w => set_transactionPool (append (transactionPool (ledger w)) t) w) ;;;
    ret true
  else
    ok <- VerifyTransactionSignature senderPublicKey s t ;;
    if ok then
      modify (fun w => set_transactionPool (append (transactionPool (ledger w)) t) w) ;;;
      ret true
    else ret false.

(** The loop of [CopyTransactionPool]: [transactions] is the slice built so
    far. *)
Fixpoint copy_loop (pool : list ptr) (transactions : list ptr) : M (list ptr) :=
  match pool with
  | [] => ret transactions
  | t :: rest =>
      tx <- lift (fun w => load (heap w) t) ;;
      p <- NewTransaction (senderBlockchainAddress tx)
                          (recipientBlockchainAddress tx) (value tx) ;;
      copy_loop rest (transactions ++ [p])
  end.

(** [Blockchain.CopyTransactionPool]; [make([]*Transaction, 0)] is empty
    and not nil. *)
Definition CopyTransactionPool : M (slice ptr) :=
  pool <- gets (fun w => transactionPool (ledger w)) ;;
  l <- copy_loop (elems pool) [] ;;
  ret (Some l).

(** [Blockchain.ValidProof]; it reads the store and nothing else. *)
Definition ValidProof (h : Heap) (nonce : Z) (previousHash : list byte)
    (transactions : slice ptr) (difficulty : Z) : result bool :=
  match strings_Repeat "0" difficulty with
  | Ok zeros =>
      let guessBlock := {| timestamp := 0; nonce := nonce;
                           previousHash := previousHash;
                           transactions := transactions |} in
      let guessHashStr := Sprintf_x (Hash h guessBlock) in
      match string_prefix guessHashStr difficulty with
      | Ok prefix => Ok (String.eqb prefix zeros)
      | Panic p => Panic p
      | Timeout => Timeout
      end
  | Panic p => Panic p
  | Timeout => Timeout
  end.

(** [for !bc.ValidProof(nonce, ...) { nonce++ }], at most [fuel] tests. *)
Fixpoint search (fuel : nat) (h : Heap) (previousHash : list byte)
    (transactions : slice ptr) (nonce : Z) : result Z :=
  match fuel with
  | O => Timeout
  | S fuel' =>
      match ValidProof h nonce previousHash transactions MiningDifficulty with
      | Ok true => Ok nonce
      | Ok false => search fuel' h previousHash transactions (wrap64 (nonce + 1))
      | Panic p => Panic p
      | Timeout => Timeout
      end
  end.

(** [Blockchain.ProofOfWork]. *)
Definition ProofOfWork (fuel : nat) : M Z :=
  transactions <- CopyTransactionPool ;;
  last <- LastBlock ;;
  previousHash <- gets (fun w => Hash (heap w) last) ;;
  lift (fun w => search fuel (heap w) previousHash transactions 0).

(** [Blockchain.Mining] ([log.Println] left out). *)
Definition Mining (fuel : nat) (now : Z) : M bool :=
  addr <- gets (fun w => blockchainAddress (ledger w)) ;;
  AddTransaction MiningSender addr MiningReward None None ;;;
  nonce <- ProofOfWork fuel ;;
  last <- LastBlock ;;
  previousHash <- gets (fun w => Hash (heap w) last) ;;
  CreateBlock now nonce previousHash ;;;
  ret true.

(** One turn of the inner loop of [CalculateTotalAmount]. *)
Definition tally (a : string) (totalAmount : float32) (t : Transaction) : float32 :=
  let v := value t in
  let totalAmount :=
    if String.eqb a (recipientBlockchainAddress t) then f32_add totalAmount v
    else totalAmount in
  if String.eqb a (senderBlockchainAddress t) then f32_sub totalAmount v
  else totalAmount.

(** [for _, t := range b.transactions]. *)
Fixpoint range_transactions (h : Heap) (a : string) (ts : list ptr)
    (totalAmount : float32) : result float32 :=
  match ts with
  | [] => Ok totalAmount
  | p :: rest =>
      match load h p with
      | Ok t => range_transactions h a rest (tally a totalAmount t)
      | Panic e => Panic e
      | Timeout => Timeout
      end
  end.

(** [for _, b := range bc.chain]. *)
Fixpoint range_chain (h : Heap) (a : string) (bs : list Block)
    (totalAmount : float32) : result float32 :=
  match bs with
  | [] => Ok totalAmount
  | b :: rest =>
      match range_transactions h a (elems (transactions b)) totalAmount with
      | Ok totalAmount' => range_chain h a rest totalAmount'
      | Panic e => Panic e
      | Timeout => Timeout
      end
  end.

(** [Blockchain.CalculateTotalAmount]; it reads the world and leaves it
    alone. *)
Definition CalculateTotalAmount (blockchainAddress : string) (w : World) :
    result float32 :=
  range_chain (heap w) blockchainAddress (chain (ledger w)) f32_zero.

(** ** Ledger states *)

(** Every pointer a ledger holds came from [NewTransaction]. *)
Definition allocated (h : Heap) (p : ptr) : Prop := (p < List.length h)%nat.

Definition wf_slice (h : Heap) (s : slice ptr) : Prop :=
  Forall (allocated h) (elems s).

Definition wf_block (h : Heap) (b : Block) : Prop :=
  wf_slice h (transactions b).

Definition wf (w : World) : Prop :=
  wf_slice (heap w) (transactionPool (ledger w)) /\
  Forall (wf_block (heap w)) (chain (ledger w)).

(** The states a ledger goes through: made by [NewBlockchain], then any
    calls of [AddTransaction] and [Mining] that return. *)
Inductive reachable : World -> Prop :=
| reach_new (now : Z) (addr : string) (port : Z) (h : Heap) (w : World) :
    NewBlockchain now addr port h = Ok w -> reachable w
| reach_add (w : World) (sender recipient : string) (v : float32)
    (pk : option PublicKey) (s : option Signature) (b : bool) (w' : World) :
    reachable w ->
    AddTransaction sender recipient v pk s w = Ok (b, w') -> reachable w'
| reach_mine (w : World) (fuel : nat) (now : Z) (b : bool) (w' : World) :
    reachable w -> Mining fuel now w = Ok (b, w') -> reachable w'.

(** The transactions a list of pointers stands for. *)
Fixpoint loads (h : Heap) (ps : list ptr) : option (list Transaction) :=
  match ps with
  | [] => Some []
  | p :: rest =>
      match deref h p, loads h rest with
      | Some t, Some ts => Some (t :: ts)
      | _, _ => None
      end
  end.

(** Consecutive blocks are linked by hash. *)
Definition linked (h : Heap) (c : list Block) : Prop :=
  forall (i : nat) (b b' : Block),
    nth_error c i = Some b -> nth_error c (S i) = Some b' ->
    previousHash b' = Hash h b.

(** The block carries a proof of work. *)
Definition proved (h : Heap) (b : Block) : Prop :=
  ValidProof h (nonce b) (previousHash b) (transactions b) MiningDifficulty = Ok true.

(** [n] is the least non-negative nonce that [ValidProof] accepts. *)
Definition least_nonce (h : Heap) (previousHash : list byte)
    (transactions : slice ptr) (n : Z) : Prop :=
  0 <= n /\
  ValidProof h n previousHash transactions MiningDifficulty = Ok true /\
  forall m, 0 <= m < n ->
    ValidProof h m previousHash transactions MiningDifficulty = Ok false.

(** ** Worlds the operations lead to *)

(** The world after [NewTransaction] made [t]. *)
Definition allocate (t : Transaction) (w : World) : World :=
  set_heap (heap w ++ [t]) w.

(** The world after [bc.transactionPool = append(bc.transactionPool, p)]. *)
Definition enqueue (p : ptr) (w : World) : World :=
  set_transactionPool (append (transactionPool (ledger w)) p) w.

(** The reward transaction [Mining] submits, and the world after it did. *)
Definition reward (w : World) : Transaction :=
  {| senderBlockchainAddress := MiningSender;
     recipientBlockchainAddress := blockchainAddress (ledger w);
     value := MiningReward |}.

Definition rewarded (w : World) : World :=
  enqueue (List.length (heap w)) (allocate (reward w) w).

(** What every reachable ledger satisfies. *)
Definition inv (w : World) : Prop :=
  wf w /\
  chain (ledger w) <> [] /\
  linked (heap w) (chain (ledger w)) /\
  Forall (proved (heap w)) (tl (chain (ledger w))).

(** ** Balances *)

(** The transactions of the chain, block after block. *)
Definition chain_pointers (c : list Block) : list ptr :=
  flat_map (fun b => elems (transactions b)) c.

(** The balance in the words of the specification: what [a] received minus
    what [a] sent. *)
Definition received (a : string) (ts : list Transaction) : list Transaction :=
  filter (fun t => String.eqb a (recipientBlockchainAddress t)) ts.

Definition sent (a : string) (ts : list Transaction) : list Transaction :=
  filter (fun t => String.eqb a (senderBlockchainAddress t)) ts.

(** In exact arithmetic, in units of [2^-149]. *)
Definition units_of (t : Transaction) : Z :=
  match f32_units (value t) with
  | Some u => u
  | None => 0
  end.

Definition sum_units (ts : list Transaction) : Z :=
  fold_right (fun t acc => units_of t + acc) 0 ts.

Definition exact_balance (a : string) (ts : list Transaction) : Z :=
  sum_units (received a ts) - sum_units (sent a ts).

(** In [float32] arithmetic, each sum taken from left to right. *)
Definition f32_sum (ts : list Transaction) : float32 :=
  fold_left (fun acc t => f32_add acc (value t)) ts f32_zero.

Definition f32_balance (a : string) (ts : list Transaction) : float32 :=
  f32_sub (f32_sum (received a ts)) (f32_sum (sent a ts)).

(** [r], the float computed from [x] and [y], is their exact sum or
    difference [zop]. *)
Definition exact (zop : Z -> Z -> Z) (x y r : float32) : bool :=
  match f32_units x, f32_units y, f32_units r with
  | Some a, Some b, Some c => c =? zop a b
  | _, _, _ => false
  end.

(** No addition or subtraction of this turn of the loop rounds. *)
Definition tally_exact (a : string) (totalAmount : float32) (t : Transaction) : bool :=
  let v := value t in
  let received := String.eqb a (recipientBlockchainAddress t) in
  let sent := String.eqb a (senderBlockchainAddress t) in
  let total' := if received then f32_add totalAmount v else totalAmount in
  (if received then exact Z.add totalAmount v total' else true) &&
  (if sent then exact Z.sub total' v (f32_sub total' v) else true).

Fixpoint no_rounding (a : string) (totalAmount : float32) (ts : list Transaction) : bool :=
  match ts with
  | [] => true
  | t :: rest => tally_exact a totalAmount t && no_rounding a (tally a totalAmount t) rest
  end.

(** ** The ledger as JSON, its history and what it holds *)

(** The struct [Blockchain.MarshalJSON] hands to [json.Marshal]. A chain is
    the nil slice ([null]) until the first [append], and no operation
    leaves it empty and allocated. *)
Definition Blockchain_json (h : Heap) (bc : Blockchain) : JSON :=
  JObject [ ("chains", match chain bc with
                       | [] => JNull
                       | c => JArray (map (Block_json h) c)
                       end) ].

(** [Blockchain.MarshalJSON]. *)
Definition Blockchain_MarshalJSON (w : World) : option (list byte) :=
  json_Marshal (Blockchain_json (heap w) (ledger w)).

(** [w'] is a later state of the ledger [w]: calls of [AddTransaction] and
    [Mining] that returned lead from [w] to [w']. *)
Inductive evolves (w : World) : World -> Prop :=
| evolves_refl : evolves w w
| evolves_add (w1 : World) (sender recipient : string) (v : float32)
    (pk : option PublicKey) (s : option Signature) (b : bool) (w' : World) :
    evolves w w1 ->
    AddTransaction sender recipient v pk s w1 = Ok (b, w') -> evolves w w'
| evolves_mine (w1 : World) (fuel : nat) (now : Z) (b : bool) (w' : World) :
    evolves w w1 -> Mining fuel now w1 = Ok (b, w') -> evolves w w'.

(** The transaction objects the ledger holds: those of its blocks, then the
    pending ones. *)
Definition held (w : World) : list ptr :=
  chain_pointers (chain (ledger w)) ++ elems (transactionPool (ledger w)).

(** [a] is neither the sender nor the recipient of [t]. *)
Definition stranger (a : string) (t : Transaction) : Prop :=
  a <> senderBlockchainAddress t /\ a <> recipientBlockchainAddress t.

End Ledger.

(** ** The ledger at work

    The operations on SHA-256, the JSON encoder and the small curve: a
    ledger is created, mines a block, and takes signed transactions. *)

Module Sample.

#[export] Instance libraries : Libraries := {|
  json_Marshal := Encoding.Marshal;
  sha256_Sum256 := SHA256.Sum256;
  PublicKey := (Z * Z)%type;
  bigInt := Z;
  ecdsa_Verify := ECDSA.Verify
|}.

(** The world [m] leaves, or [w] itself when [m] does not return. *)
Definition after {A : Type} (m : M A) (w : World) : World :=
  match m w with
  | Ok (_, w') => w'
  | _ => w
  end.

Definition empty : World :=
  {| heap := [];
     ledger := {| transactionPool := None; chain := [];
                  blockchainAddress := ""; port := 0 |} |}.

(** A ledger for the address [A], and the same after mining once. *)
Definition created : World :=
  Eval vm_compute in
    match NewBlockchain 1700000000000002251 "A" 5000 [] with
    | Ok w => w
    | _ => empty
    end.

Definition mined : World :=
  Eval vm_compute in after (Mining 2 1700000000000002300) created.

(** The key pair of [A] on the small curve: the private key [7], and a
    signature of the transfer of [1] from [A] to [B] made with it. *)
Definition transfer : Transaction :=
  {| senderBlockchainAddress := "A"; recipientBlockchainAddress := "B";
     value := f32_of_Z 1 |}.

Definition key : PublicKey := (0, 6).
Definition signed : Signature := {| utils.R := Some 6; utils.S := Some 15 |}.
Definition forged : Signature := {| utils.R := Some 6; utils.S := Some 16 |}.

(** The ledger of the balance example: three transfers from the mining
    sender are queued (half a unit to [B], [2^24] units to itself, one unit
    to [B]) and a block is mined. *)
Definition f32_half : float32 := Eval cbv in binary_normalize 24 128 1 (-1) false.

Definition opened : World :=
  Eval vm_compute in
    match NewBlockchain 1700000000000000770 "A" 5000 [] with
    | Ok w => w
    | _ => empty
    end.

Definition queued1 : World :=
  Eval vm_compute in after (AddTransaction MiningSender "B" f32_half None None) opened.

Definition queued2 : World :=
  Eval vm_compute in
    after (AddTransaction MiningSender MiningSender (f32_of_Z 16777216) None None) queued1.

Definition queued3 : World :=
  Eval vm_compute in after (AddTransaction MiningSender "B" (f32_of_Z 1) None None) queued2.

Definition books : World :=
  Eval vm_compute in after (Mining 1 1700000000000000900) queued3.

(** The transactions of its chain. *)
Definition entries : list Transaction := firstn 4 (heap books).

(** The state in which [Mining] runs [ProofOfWork] on the new ledger: the
    reward is queued. Nonce [0] is refused and nonce [1] accepted. *)
Definition pending : World := Eval vm_compute in rewarded created.

Definition genesis : Block :=
  Eval vm_compute in hd (NewBlock 0 0 [] None) (chain (ledger created)).

(** The same state once [CopyTransactionPool] has run. *)
Definition copied : World := set_heap (heap pending ++ [reward created]) pending.

(** A ledger with a pending transaction whose value is not a number: no
    block that holds it encodes. *)
Definition poisoned : World :=
  Eval vm_compute in after (AddTransaction MiningSender "B" S754_nan None None) created.

(** The same transfer submitted twice to the mined ledger. *)
Definition twice1 : World :=
  Eval vm_compute in after (AddTransaction MiningSender "B" (f32_of_Z 1) None None) mined.

Definition twice2 : World :=
  Eval vm_compute in after (AddTransaction MiningSender "B" (f32_of_Z 1) None None) twice1.

End Sample.

(** ** Properties *)

Section Properties.

Context {go : Libraries}.

(** The result type of [sha256.Sum256] is [[32]byte]. *)
Hypothesis Sum256_size : forall m, List.length (sha256_Sum256 m) = 32%nat.

(** ** The store only grows *)

Lemma deref_app (h d : Heap) (p : ptr) :
  allocated h p -> deref (h ++ d) p = deref h p.
Proof.
  unfold allocated, deref. intros Hp. now apply nth_error_app1.
Qed.

Lemma allocated_app (h d : Heap) (p : ptr) :
  allocated h p -> allocated (h ++ d) p.
Proof.
  unfold allocated. rewrite length_app. lia.
Qed.

Lemma allocated_deref (h : Heap) (p : ptr) :
  allocated h p -> exists t, deref h p = Some t.
Proof.
  unfold allocated, deref. intros Hp.
  destruct (nth_error h p) as [t|] eqn:E; [now exists t|].
  apply nth_error_None in E. lia.
Qed.

Lemma deref_allocated (h : Heap) (p : ptr) (t : Transaction) :
  deref h p = Some t -> allocated h p.
Proof.
  unfold allocated, deref. intros E. apply nth_error_Some. congruence.
Qed.

Lemma wf_slice_app (h d : Heap) (s : slice ptr) :
  wf_slice h s -> wf_slice (h ++ d) s.
Proof.
  unfold wf_slice. intros H. eapply Forall_impl; [|exact H].
  intros p. apply allocated_app.
Qed.

Lemma wf_block_app (h d : Heap) (b : Block) :
  wf_block h b -> wf_block (h ++ d) b.
Proof. apply wf_slice_app. Qed.

Lemma wf_chain_app (h d : Heap) (c : list Block) :
  Forall (wf_block h) c -> Forall (wf_block (h ++ d)) c.
Proof.
  intros H. eapply Forall_impl; [|exact H]. intros b. apply wf_block_app.
Qed.

Lemma ptr_json_app (h d : Heap) (p : ptr) :
  allocated h p -> ptr_json (h ++ d) p = ptr_json h p.
Proof.
  intros Hp. unfold ptr_json. now rewrite deref_app.
Qed.

Lemma slice_json_app (h d : Heap) (s : slice ptr) :
  wf_slice h s -> slice_json (h ++ d) s = slice_json h s.
Proof.
  destruct s as [l|]; [|reflexivity].
  unfold wf_slice. cbn. intros H. f_equal.
  apply map_ext_in. intros p Hp. apply ptr_json_app.
  rewrite Forall_forall in H. now apply H.
Qed.

Lemma Hash_app (h d : Heap) (b : Block) :
  wf_block h b -> Hash (h ++ d) b = Hash h b.
Proof.
  intros H. unfold Hash, Block_json. now rewrite slice_json_app.
Qed.

Lemma ValidProof_app (h d : Heap) (n : Z) (ph : list byte) (txs : slice ptr) (k : Z) :
  wf_slice h txs -> ValidProof (h ++ d) n ph txs k = ValidProof h n ph txs k.
Proof.
  intros H. unfold ValidProof. now rewrite Hash_app.
Qed.

Lemma proved_app (h d : Heap) (b : Block) :
  wf_block h b -> proved h b -> proved (h ++ d) b.
Proof.
  unfold proved. intros H Hb. now rewrite ValidProof_app.
Qed.

Lemma loads_app (h d : Heap) (ps : list ptr) (ts : list Transaction) :
  loads h ps = Some ts -> loads (h ++ d) ps = Some ts.
Proof.
  revert ts. induction ps as [|p ps IH]; intros ts; cbn; [easy|].
  destruct (deref h p) as [t|] eqn:E; [|discriminate].
  destruct (loads h ps) as [ts'|]; [|discriminate].
  intros [= <-]. rewrite deref_app by (eapply deref_allocated; eauto).
  now rewrite E, (IH ts').
Qed.

Lemma loads_allocated (h : Heap) (ps : list ptr) :
  Forall (allocated h) ps -> exists ts, loads h ps = Some ts.
Proof.
  induction 1 as [|p ps Hp _ [ts IH]]; cbn; [now exists []|].
  destruct (allocated_deref _ _ Hp) as [t E].
  exists (t :: ts). now rewrite E, IH.
Qed.

Lemma loads_length (h : Heap) (ps : list ptr) (ts : list Transaction) :
  loads h ps = Some ts -> List.length ts = List.length ps.
Proof.
  revert ts. induction ps as [|p ps IH]; intros ts; cbn.
  - now intros [= <-].
  - destruct (deref h p); [|discriminate].
    destruct (loads h ps) as [ts'|]; [|discriminate].
    intros [= <-]. cbn. now rewrite (IH ts').
Qed.

Lemma loads_nth (h : Heap) (ps : list ptr) (ts : list Transaction) (i : nat) (p : ptr) :
  loads h ps = Some ts -> nth_error ps i = Some p ->
  exists t, nth_error ts i = Some t /\ deref h p = Some t.
Proof.
  revert ts i. induction ps as [|q ps IH]; intros ts i; cbn.
  - intros _. now destruct i.
  - destruct (deref h q) as [t|] eqn:E; [|discriminate].
    destruct (loads h ps) as [ts'|]; [|discriminate].
    intros [= <-]. destruct i as [|i]; cbn.
    + intros [= <-]. now exists t.
    + now apply IH.
Qed.

Lemma range_transactions_app (h d : Heap) (a : string) (ts : list ptr) (acc : float32) :
  Forall (allocated h) ts ->
  range_transactions (h ++ d) a ts acc = range_transactions h a ts acc.
Proof.
  intros H. revert acc. induction H as [|p ts Hp _ IH]; intros acc; cbn; [easy|].
  unfold load. rewrite deref_app by assumption.
  destruct (deref h p); [apply IH|reflexivity].
Qed.

Lemma range_chain_app (h d : Heap) (a : string) (c : list Block) (acc : float32) :
  Forall (wf_block h) c ->
  range_chain (h ++ d) a c acc = range_chain h a c acc.
Proof.
  intros H. revert acc. induction H as [|b c Hb _ IH]; intros acc; cbn; [easy|].
  rewrite range_transactions_app by exact Hb.
  destruct (range_transactions h a (elems (transactions b)) acc); auto.
Qed.

(** ** What each operation does to the world *)

Lemma set_heap_twice (h h' : Heap) (w : World) :
  set_heap h (set_heap h' w) = set_heap h w.
Proof. reflexivity. Qed.

Lemma Transaction_eta (t : Transaction) :
  {| senderBlockchainAddress := senderBlockchainAddress t;
     recipientBlockchainAddress := recipientBlockchainAddress t;
     value := value t |} = t.
Proof. now destruct t. Qed.

Lemma AddTransaction_run (sender recipient : string) (v : float32)
    (pk : option PublicKey) (s : option Signature) (w : World) :
  let t := {| senderBlockchainAddress := sender;
              recipientBlockchainAddress := recipient; value := v |} in
  let p := List.length (heap w) in
  AddTransaction sender recipient v pk s w =
    if String.eqb sender MiningSender then Ok (true, enqueue p (allocate t w))
    else
      match VerifyTransactionSignature pk s p (allocate t w) with
      | Ok (true, _) => Ok (true, enqueue p (allocate t w))
      | Ok (false, _) => Ok (false, allocate t w)
      | Panic e => Panic e
      | Timeout => Timeout
      end.
Proof.
  cbn zeta. unfold AddTransaction, bind, NewTransaction.
  fold (allocate {| senderBlockchainAddress := sender;
                    recipientBlockchainAddress := recipient; value := v |} w).
  destruct (String.eqb sender MiningSender); [reflexivity|].
  unfold VerifyTransactionSignature, lift.
  destruct s as [sig|]; [|reflexivity].
  destruct (ecdsa_Verify _ _ _ _) as [[|]| |]; reflexivity.
Qed.

Lemma copy_loop_run (pool : list ptr) :
  forall (acc : list ptr) (w : World) (txs : list Transaction),
    loads (heap w) pool = Some txs ->
    copy_loop pool acc w =
      Ok (acc ++ seq (List.length (heap w)) (List.length pool),
          set_heap (heap w ++ txs) w).
Proof.
  induction pool as [|p pool IH]; intros acc w txs; cbn [loads copy_loop].
  - intros [= <-]. unfold ret. rewrite !app_nil_r. now destruct w.
  - destruct (deref (heap w) p) as [t|] eqn:E; [|discriminate].
    destruct (loads (heap w) pool) as [ts|] eqn:L; [|discriminate].
    intros [= <-].
    unfold bind at 1. unfold lift, load. rewrite E.
    unfold bind at 1. unfold NewTransaction. rewrite Transaction_eta.
    rewrite (IH _ _ ts) by (cbn; now apply loads_app).
    cbn [heap set_heap]. rewrite set_heap_twice, length_app. cbn [List.length seq].
    rewrite <- !app_assoc. cbn [app]. now rewrite Nat.add_1_r.
Qed.

Lemma CopyTransactionPool_run (w : World) (txs : list Transaction) :
  loads (heap w) (elems (transactionPool (ledger w))) = Some txs ->
  CopyTransactionPool w =
    Ok (Some (seq (List.length (heap w)) (List.length txs)),
        set_heap (heap w ++ txs) w).
Proof.
  intros L. unfold CopyTransactionPool, bind, gets.
  rewrite (copy_loop_run _ _ _ _ L). cbn [app ret].
  now rewrite (loads_length _ _ _ L).
Qed.

Lemma LastBlock_run (w : World) (c : list Block) (last : Block) :
  chain (ledger w) = c ++ [last] -> LastBlock w = Ok (last, w).
Proof.
  intros E. unfold LastBlock. now rewrite E, rev_app_distr.
Qed.

Lemma LastBlock_inv (w : World) (last : Block) (w' : World) :
  LastBlock w = Ok (last, w') ->
  w' = w /\ exists c, chain (ledger w) = c ++ [last].
Proof.
  unfold LastBlock. destruct (rev (chain (ledger w))) as [|b r] eqn:E; [discriminate|].
  intros [= <- <-]. split; [reflexivity|].
  exists (rev r). rewrite <- (rev_involutive (chain (ledger w))), E. reflexivity.
Qed.

Lemma ProofOfWork_run (fuel : nat) (w : World) (txs : list Transaction)
    (c : list Block) (last : Block) :
  loads (heap w) (elems (transactionPool (ledger w))) = Some txs ->
  chain (ledger w) = c ++ [last] ->
  ProofOfWork fuel w =
    match search fuel (heap w ++ txs) (Hash (heap w ++ txs) last)
            (Some (seq (List.length (heap w)) (List.length txs))) 0 with
    | Ok n => Ok (n, set_heap (heap w ++ txs) w)
    | Panic e => Panic e
    | Timeout => Timeout
    end.
Proof.
  intros L E. unfold ProofOfWork. unfold bind at 1.
  rewrite (CopyTransactionPool_run _ _ L).
  unfold bind at 1. rewrite (LastBlock_run _ c last) by exact E.
  reflexivity.
Qed.

Lemma CreateBlock_run (now n : Z) (ph : list byte) (w : World) :
  let b := NewBlock now n ph (transactionPool (ledger w)) in
  CreateBlock now n ph w =
    Ok (b, set_transactionPool (Some []) (set_chain (chain (ledger w) ++ [b]) w)).
Proof. reflexivity. Qed.

(** ** The nonce search *)

Lemma wrap64_small (z : Z) : min_int <= z <= max_int -> wrap64 z = z.
Proof.
  unfold wrap64, min_int, max_int. intros H.
  rewrite Z.mod_small; lia.
Qed.

Lemma wrap64_range (z : Z) : min_int <= wrap64 z <= max_int.
Proof.
  unfold wrap64, min_int, max_int.
  pose proof (Z.mod_pos_bound (z + 2 ^ 63) (2 ^ 64)). lia.
Qed.

Lemma length_Sprintf_x (bs : list byte) :
  String.length (Sprintf_x bs) = (2 * List.length bs)%nat.
Proof.
  induction bs as [|b bs IH]; cbn [Sprintf_x List.length]; [reflexivity|].
  unfold hex_byte. cbn [String.append String.length]. lia.
Qed.

(** At the difficulty of the ledger [ValidProof] never panics. *)
Lemma ValidProof_total (h : Heap) (n : Z) (ph : list byte) (txs : slice ptr) :
  exists b, ValidProof h n ph txs MiningDifficulty = Ok b.
Proof.
  unfold ValidProof, MiningDifficulty, strings_Repeat, string_prefix.
  rewrite length_Sprintf_x. unfold Hash. rewrite Sum256_size.
  cbn. eauto.
Qed.

(** What a search that returns has seen: the nonce it returns is accepted,
    and, if the counter did not wrap around, every nonce from the start up
    to it was refused. *)
Lemma search_returns (h : Heap) (ph : list byte) (txs : slice ptr) (fuel : nat) :
  forall (a n : Z),
    min_int <= a <= max_int ->
    search fuel h ph txs a = Ok n ->
    ValidProof h n ph txs MiningDifficulty = Ok true /\
    min_int <= n <= max_int /\
    (a <= n -> forall m, a <= m < n ->
       ValidProof h m ph txs MiningDifficulty = Ok false).
Proof.
  induction fuel as [|fuel IH]; intros a n Ha; cbn [search]; [discriminate|].
  destruct (ValidProof h a ph txs MiningDifficulty) as [[|]| |] eqn:E;
    try discriminate.
  - intros [= <-]. split; [assumption|]. split; [lia|]. intros; lia.
  - intros Hs. destruct (IH _ _ (wrap64_range (a + 1)) Hs) as (Hn & Hr & Hl).
    split; [assumption|]. split; [lia|].
    intros Han m Hm.
    assert (a <> n) by (intros ->; congruence).
    assert (Hw : wrap64 (a + 1) = a + 1) by (apply wrap64_small; lia).
    rewrite Hw in Hl.
    destruct (Z.eq_dec m a) as [->|]; [assumption|].
    apply Hl; lia.
Qed.

(** The search finds the first accepted nonce, the distance to it bounding
    the number of tests. *)
Lemma search_finds (h : Heap) (ph : list byte) (txs : slice ptr) (n : Z) (k : nat) :
  forall (a : Z) (fuel : nat),
    n - a = Z.of_nat k -> min_int <= a -> n <= max_int ->
    ValidProof h n ph txs MiningDifficulty = Ok true ->
    (forall m, a <= m < n -> ValidProof h m ph txs MiningDifficulty = Ok false) ->
    (k < fuel)%nat ->
    search fuel h ph txs a = Ok n.
Proof.
  induction k as [|k IH]; intros a fuel Hk Ha Hn Hv Hl Hf;
    (destruct fuel as [|fuel]; [lia|]); cbn [search].
  - assert (a = n) as -> by lia. now rewrite Hv.
  - rewrite Hl by lia.
    rewrite wrap64_small by lia.
    apply IH; try lia; try assumption.
    intros m Hm. apply Hl. lia.
Qed.

(** A search that returns a nonce below its start went past [max_int]: it
    refused every nonce from the start up to there. *)
Lemma search_wrapped (h : Heap) (ph : list byte) (txs : slice ptr) (fuel : nat) :
  forall (a n : Z),
    min_int <= a <= max_int ->
    search fuel h ph txs a = Ok n -> n < a ->
    forall m, a <= m <= max_int ->
      ValidProof h m ph txs MiningDifficulty = Ok false.
Proof.
  induction fuel as [|fuel IH]; intros a n Ha; cbn [search]; [discriminate|].
  destruct (ValidProof h a ph txs MiningDifficulty) as [[|]| |] eqn:E;
    try discriminate.
  - intros [= <-]. lia.
  - intros Hs Hlt m Hm.
    destruct (Z.eq_dec m a) as [->|Hne]; [assumption|].
    assert (Hw : wrap64 (a + 1) = a + 1) by (apply wrap64_small; lia).
    rewrite Hw in Hs.
    destruct (Z.lt_ge_cases n (a + 1)) as [Hlt'|Hge].
    + apply (IH (a + 1) n); try lia; assumption.
    + apply search_returns in Hs; lia.
Qed.

(** Among the accepted nonces from [0] on there is a least one. *)
Lemma least_nonce_exists (h : Heap) (ph : list byte) (txs : slice ptr) (m : Z) :
  0 <= m -> ValidProof h m ph txs MiningDifficulty = Ok true ->
  exists n, least_nonce h ph txs n /\ n <= m.
Proof.
  intros Hm. pattern m. apply Zlt_0_ind; [|exact Hm].
  clear m Hm. intros m IH Hm Hv.
  assert (D : (exists k, 0 <= k < m /\
                 ValidProof h k ph txs MiningDifficulty = Ok true) \/
              (forall k, 0 <= k < m ->
                 ValidProof h k ph txs MiningDifficulty = Ok false)).
  { clear IH Hv. pattern m. apply natlike_ind; [| |exact Hm].
    - right. intros; lia.
    - intros x Hx [(k & Hk & Hv)|Hall].
      + left. exists k. split; [lia|assumption].
      + destruct (ValidProof_total h x ph txs) as [[|] E].
        * left. exists x. split; [lia|assumption].
        * right. intros k Hk. destruct (Z.eq_dec k x) as [->|]; [assumption|].
          apply Hall. lia. }
  destruct D as [(k & Hk & Hkv)|Hall].
  - destruct (IH k Hk Hkv) as (n & Hn & Hle). exists n. split; [assumption|lia].
  - exists m. split; [|lia]. repeat split; assumption.
Qed.

Lemma least_nonce_unique (h : Heap) (ph : list byte) (txs : slice ptr) (n n' : Z) :
  least_nonce h ph txs n -> least_nonce h ph txs n' -> n = n'.
Proof.
  intros (Hn & Hv & Hl) (Hn' & Hv' & Hl').
  destruct (Z.lt_trichotomy n n') as [Hlt|[->|Hgt]]; [|reflexivity|].
  - specialize (Hl' n ltac:(lia)). congruence.
  - specialize (Hl n' ltac:(lia)). congruence.
Qed.

(** ** Mining, step by step *)

Lemma Mining_run (fuel : nat) (now : Z) (w : World) (txs : list Transaction)
    (c : list Block) (last : Block) :
  loads (heap (rewarded w)) (elems (transactionPool (ledger (rewarded w)))) = Some txs ->
  chain (ledger w) = c ++ [last] ->
  let h2 := heap (rewarded w) ++ txs in
  let ph := Hash h2 last in
  Mining fuel now w =
    match search fuel h2 ph
            (Some (seq (List.length (heap (rewarded w))) (List.length txs))) 0 with
    | Ok n =>
        Ok (true,
            set_transactionPool (Some [])
              (set_chain (chain (ledger w)
                            ++ [NewBlock now n ph (transactionPool (ledger (rewarded w)))])
                 (set_heap h2 (rewarded w))))
    | Panic e => Panic e
    | Timeout => Timeout
    end.
Proof.
  intros L E. cbn zeta. unfold Mining.
  unfold bind at 1. unfold gets at 1.
  unfold bind at 1. rewrite AddTransaction_run, String.eqb_refl.
  fold (reward w). fold (rewarded w).
  unfold bind at 1.
  rewrite (ProofOfWork_run fuel (rewarded w) txs c last L) by exact E.
  destruct (search fuel _ _ _ 0) as [n| |]; try reflexivity.
  unfold bind at 1.
  rewrite (LastBlock_run _ c last) by exact E.
  reflexivity.
Qed.

(** ** Copies print alike *)

Lemma map_ptr_json_loads (h : Heap) (ps : list ptr) (ts : list Transaction) :
  loads h ps = Some ts -> map (ptr_json h) ps = map Transaction_json ts.
Proof.
  revert ts. induction ps as [|p ps IH]; intros ts; cbn [loads map].
  - now intros [= <-].
  - unfold ptr_json at 1. destruct (deref h p) as [t|]; [|discriminate].
    destruct (loads h ps) as [ts'|]; [|discriminate].
    intros [= <-]. cbn [map]. now rewrite (IH ts').
Qed.

Lemma loads_seq (ts : list Transaction) :
  forall h : Heap, loads (h ++ ts) (seq (List.length h) (List.length ts)) = Some ts.
Proof.
  induction ts as [|t ts IH]; intros h; cbn [List.length seq loads]; [reflexivity|].
  unfold deref. rewrite nth_error_app2 by lia. rewrite Nat.sub_diag. cbn [nth_error].
  specialize (IH (h ++ [t])). rewrite <- app_assoc, length_app in IH.
  cbn [List.length app] in IH. rewrite Nat.add_1_r in IH. now rewrite IH.
Qed.

(** The copy [CopyTransactionPool] makes of a pool that is not nil prints as
    the pool does. *)
Lemma slice_json_copy (h : Heap) (ps : list ptr) (ts : list Transaction) :
  loads h ps = Some ts ->
  slice_json (h ++ ts) (Some (seq (List.length h) (List.length ts))) =
  slice_json (h ++ ts) (Some ps).
Proof.
  intros L. cbn [slice_json]. f_equal.
  rewrite (map_ptr_json_loads _ _ ts) by apply loads_seq.
  symmetry. apply map_ptr_json_loads. now apply loads_app.
Qed.

(** ** The invariant of the ledger *)

Lemma linked_app (h d : Heap) (c : list Block) :
  Forall (wf_block h) c -> linked h c -> linked (h ++ d) c.
Proof.
  intros Hwf Hl i b b' Hb Hb'. rewrite Hash_app.
  - now apply (Hl i).
  - rewrite Forall_forall in Hwf. apply Hwf. eapply nth_error_In; eauto.
Qed.

Lemma linked_snoc (h : Heap) (c : list Block) (last b : Block) :
  linked h (c ++ [last]) -> previousHash b = Hash h last ->
  linked h ((c ++ [last]) ++ [b]).
Proof.
  intros Hl Hb i x y Hx Hy.
  assert (Hi : (S i < List.length ((c ++ [last]) ++ [b]))%nat)
    by (apply nth_error_Some; congruence).
  rewrite !length_app in Hi. cbn [List.length] in Hi.
  destruct (Nat.eq_dec (S i) (List.length c + 1)) as [Heq|Hne].
  - rewrite nth_error_app2 in Hy by (rewrite length_app; cbn; lia).
    rewrite length_app, Heq, Nat.sub_diag in Hy. cbn in Hy.
    rewrite nth_error_app1 in Hx by (rewrite length_app; cbn; lia).
    rewrite nth_error_app2 in Hx by lia.
    replace (i - List.length c)%nat with 0%nat in Hx by lia. cbn in Hx.
    congruence.
  - rewrite nth_error_app1 in Hx by (rewrite length_app; cbn; lia).
    rewrite nth_error_app1 in Hy by (rewrite length_app; cbn; lia).
    now apply (Hl i).
Qed.

Lemma wf_pool_loads (w : World) :
  wf w -> exists ts, loads (heap w) (elems (transactionPool (ledger w))) = Some ts.
Proof.
  intros [Hp _]. now apply loads_allocated.
Qed.

Lemma wf_allocate (t : Transaction) (w : World) : wf w -> wf (allocate t w).
Proof.
  intros [Hp Hc]. split; cbn.
  - now apply wf_slice_app.
  - now apply wf_chain_app.
Qed.

Lemma wf_enqueue_allocate (t : Transaction) (w : World) :
  wf w -> wf (enqueue (List.length (heap w)) (allocate t w)).
Proof.
  intros [Hp Hc]. split; cbn.
  - unfold wf_slice. cbn. apply Forall_app. split.
    + eapply Forall_impl; [|exact Hp]. intros p. apply allocated_app.
    + constructor; [|constructor]. unfold allocated. rewrite length_app. cbn. lia.
  - now apply wf_chain_app.
Qed.

Lemma inv_allocate (t : Transaction) (w : World) : inv w -> inv (allocate t w).
Proof.
  intros (Hwf & Hne & Hl & Hp). split; [now apply wf_allocate|].
  destruct Hwf as [_ Hc]. cbn. repeat split; [assumption|now apply linked_app|].
  assert (Ht : Forall (wf_block (heap w)) (tl (chain (ledger w)))).
  { destruct (chain (ledger w)); [constructor|now inversion Hc]. }
  induction Hp as [|b l Hb _ IH]; constructor; inversion Ht; subst.
  - now apply proved_app.
  - now apply IH.
Qed.

Lemma inv_enqueue_allocate (t : Transaction) (w : World) :
  inv w -> inv (enqueue (List.length (heap w)) (allocate t w)).
Proof.
  intros H. pose proof (inv_allocate t w H) as (_ & Hne & Hl & Hp).
  split; [apply wf_enqueue_allocate, H|]. cbn in *. now repeat split.
Qed.

Lemma inv_NewBlockchain (now : Z) (addr : string) (port : Z) (h : Heap) (w : World) :
  NewBlockchain now addr port h = Ok w -> inv w.
Proof.
  unfold NewBlockchain. rewrite CreateBlock_run. intros [= <-].
  split; [split; cbn|cbn; repeat split].
  - constructor.
  - constructor; [constructor|constructor].
  - discriminate.
  - intros i b b' _ Hb'. destruct i; discriminate.
  - constructor.
Qed.

Lemma inv_AddTransaction (sender recipient : string) (v : float32)
    (pk : option PublicKey) (s : option Signature) (w : World) (b : bool) (w' : World) :
  inv w -> AddTransaction sender recipient v pk s w = Ok (b, w') -> inv w'.
Proof.
  intros H. rewrite AddTransaction_run.
  destruct (String.eqb sender MiningSender).
  - intros [= <- <-]. now apply inv_enqueue_allocate.
  - destruct (VerifyTransactionSignature _ _ _ _) as [[[|] w1]| |]; try discriminate.
    + intros [= <- <-]. now apply inv_enqueue_allocate.
    + intros [= <- <-]. now apply inv_allocate.
Qed.

(** Sealing a block: the step of [Mining] after the reward was queued. *)
Lemma inv_seal (fuel : nat) (now n : Z) (w : World) (ps : list ptr)
    (txs : list Transaction) (c : list Block) (last : Block) :
  inv w ->
  transactionPool (ledger w) = Some ps ->
  loads (heap w) ps = Some txs ->
  chain (ledger w) = c ++ [last] ->
  search fuel (heap w ++ txs) (Hash (heap w ++ txs) last)
    (Some (seq (List.length (heap w)) (List.length txs))) 0 = Ok n ->
  inv (set_transactionPool (Some [])
         (set_chain (chain (ledger w)
                       ++ [NewBlock now n (Hash (heap w ++ txs) last) (Some ps)])
            (set_heap (heap w ++ txs) w))).
Proof.
  intros ((Hpool & Hchain) & Hne & Hl & Hp) Epool L E Hs.
  rewrite Epool in Hpool.
  assert (Hnew : wf_block (heap w ++ txs)
                   (NewBlock now n (Hash (heap w ++ txs) last) (Some ps)))
    by (apply wf_slice_app; exact Hpool).
  split; [split|]; cbn; [constructor| |repeat split].
  - apply Forall_app. split; [now apply wf_chain_app|]. now constructor.
  - rewrite E. now destruct c.
  - rewrite E. apply linked_snoc; [|reflexivity].
    rewrite <- E. now apply linked_app.
  - assert (Et : tl (chain (ledger w) ++ [NewBlock now n (Hash (heap w ++ txs) last) (Some ps)])
                 = tl (chain (ledger w))
                   ++ [NewBlock now n (Hash (heap w ++ txs) last) (Some ps)])
      by (destruct (chain (ledger w)); [contradiction|reflexivity]).
    rewrite Et. apply Forall_app. split.
    + assert (Ht : Forall (wf_block (heap w)) (tl (chain (ledger w))))
        by (destruct (chain (ledger w)); [constructor|now inversion Hchain]).
      clear Et. induction Hp as [|b l Hb _ IH]; constructor; inversion Ht; subst.
      * now apply proved_app.
      * now apply IH.
    + constructor; [|constructor].
      apply search_returns in Hs; [|unfold min_int, max_int; lia].
      destruct Hs as (Hv & _).
      unfold proved, NewBlock. cbn [nonce previousHash transactions].
      unfold ValidProof, Hash, Block_json in *.
      cbn [timestamp nonce previousHash transactions] in *.
      now rewrite <- (slice_json_copy _ _ _ L).
Qed.

Lemma inv_Mining (fuel : nat) (now : Z) (w : World) (b : bool) (w' : World) :
  inv w -> Mining fuel now w = Ok (b, w') -> inv w'.
Proof.
  intros H.
  pose proof (inv_enqueue_allocate (reward w) w H) as H1. fold (rewarded w) in H1.
  destruct (wf_pool_loads _ (proj1 H1)) as [txs L].
  destruct H as (Hwf & Hne & Hrest).
  destruct (exists_last Hne) as (c & last & E).
  rewrite (Mining_run fuel now w txs c last L E).
  destruct (search fuel _ _ _ 0) as [n| |] eqn:Hs; try discriminate.
  intros [= <- <-].
  apply (inv_seal fuel now n (rewarded w) _ txs c last H1 eq_refl L E Hs).
Qed.

Lemma inv_reachable (w : World) : reachable w -> inv w.
Proof.
  induction 1 as [now addr port h w H|w sender recipient v pk s b w' _ IH H
                 |w fuel now b w' _ IH H].
  - eapply inv_NewBlockchain; eauto.
  - eapply inv_AddTransaction; eauto.
  - eapply inv_Mining; eauto.
Qed.

(** ** The properties of the specification *)

(** C1, chain integrity: in every state the ledger reaches from
    [NewBlockchain] by calls of [AddTransaction] and [Mining], each block
    after the first holds the hash of the block before it:
    [chain[i+1].previousHash] is [hash(chain[i])]. *)
Theorem chain_integrity (w : World) (i : nat) (b b' : Block) :
  reachable w ->
  nth_error (chain (ledger w)) i = Some b ->
  nth_error (chain (ledger w)) (S i) = Some b' ->
  previousHash b' = Hash (heap w) b.
Proof.
  intros Hr. destruct (inv_reachable w Hr) as (_ & _ & Hl & _).
  apply Hl.
Qed.

Lemma ValidProof_true_zeros (h : Heap) (n : Z) (ph : list byte) (txs : slice ptr) :
  ValidProof h n ph txs MiningDifficulty = Ok true ->
  substring 0 3
    (Sprintf_x (Hash h {| timestamp := 0; nonce := n;
                          previousHash := ph; transactions := txs |})) = "000".
Proof.
  unfold ValidProof, MiningDifficulty, strings_Repeat, string_prefix.
  rewrite length_Sprintf_x. unfold Hash at 1. rewrite Sum256_size.
  cbn [Z.ltb Z.compare orb Z.of_nat Nat.mul Nat.add Pos.of_succ_nat Pos.succ
       Pos.compare Pos.compare_cont Z.to_nat Pos.to_nat Pos.iter_op repeat_string].
  intros [= E]. now apply String.eqb_eq in E.
Qed.

(** C2, proof-of-work validity: every block of a reachable chain but the
    first, that is every block [Mining] appended, passes [ValidProof] at
    [MiningDifficulty] with its own nonce, previous hash and transactions:
    the hex hash of the candidate block with timestamp [0] starts with
    three ['0']. The stored block holds the pool's transactions while the
    search ran over their copies. *)
Theorem mined_block_valid_proof (w : World) (i : nat) (b : Block) :
  reachable w ->
  nth_error (chain (ledger w)) (S i) = Some b ->
  ValidProof (heap w) (nonce b) (previousHash b) (transactions b)
    MiningDifficulty = Ok true /\
  substring 0 3
    (Sprintf_x (Hash (heap w) {| timestamp := 0; nonce := nonce b;
                                 previousHash := previousHash b;
                                 transactions := transactions b |})) = "000".
Proof.
  intros Hr Hb. destruct (inv_reachable w Hr) as (_ & _ & _ & Hp).
  assert (Hv : proved (heap w) b).
  { rewrite Forall_forall in Hp. apply Hp.
    destruct (chain (ledger w)) as [|g c]; [discriminate|].
    cbn in *. eapply nth_error_In; eauto. }
  split; [exact Hv|]. now apply ValidProof_true_zeros.
Qed.

(** C3, the contract of [ProofOfWork], on a ledger whose pool holds the
    transactions [txs] and whose chain ends in the block [last]: it returns
    the least non-negative nonce that [ValidProof] accepts for the hash of
    [last] and the copy of the pool (the fresh pointers [copy], in the store
    [h] the copies were added to), at [MiningDifficulty]. If there is such a
    nonce [n] within [int], every run of more than [n] tests returns it; a
    non-negative result is that nonce ([ValidProof] holds at it and fails at
    every smaller non-negative one); and a negative result means the counter
    wrapped around, no non-negative [int] being accepted. *)
Theorem ProofOfWork_least_nonce (w : World) (txs : list Transaction)
    (c : list Block) (last : Block) :
  loads (heap w) (elems (transactionPool (ledger w))) = Some txs ->
  chain (ledger w) = c ++ [last] ->
  let h := heap w ++ txs in
  let copy := Some (seq (List.length (heap w)) (List.length txs)) in
  let previousHash := Hash h last in
  (forall n, least_nonce h previousHash copy n -> n <= max_int ->
     forall fuel, (Z.to_nat n < fuel)%nat ->
       ProofOfWork fuel w = Ok (n, set_heap h w)) /\
  (forall fuel n w', ProofOfWork fuel w = Ok (n, w') -> 0 <= n ->
     least_nonce h previousHash copy n) /\
  (forall fuel n w', ProofOfWork fuel w = Ok (n, w') -> n < 0 ->
     forall m, 0 <= m <= max_int ->
       ValidProof h m previousHash copy MiningDifficulty = Ok false).
Proof.
  intros L E. cbn zeta.
  assert (H0 : min_int <= 0 <= max_int) by (unfold min_int, max_int; lia).
  split; [|split].
  - intros n (Hn & Hv & Hl) Hmax fuel Hf.
    rewrite (ProofOfWork_run fuel w txs c last L E).
    rewrite (search_finds _ _ _ n (Z.to_nat n) 0 fuel); try assumption;
      try lia; try reflexivity.
  - intros fuel n w' H Hn.
    rewrite (ProofOfWork_run fuel w txs c last L E) in H.
    destruct (search fuel _ _ _ 0) as [n'| |] eqn:Hs; try discriminate.
    injection H as <- _. apply search_returns in Hs; [|assumption].
    destruct Hs as (Hv & _ & Hl).
    split; [assumption|]. split; [assumption|].
    intros m Hm. apply Hl; lia.
  - intros fuel n w' H Hn m Hm.
    rewrite (ProofOfWork_run fuel w txs c last L E) in H.
    destruct (search fuel _ _ _ 0) as [n'| |] eqn:Hs; try discriminate.
    injection H as <- _.
    apply (search_wrapped _ _ _ fuel 0 n'); try assumption; lia.
Qed.

Lemma deref_allocate_old (t : Transaction) (w : World) (q : ptr) (tx : Transaction) :
  deref (heap w) q = Some tx -> deref (heap (allocate t w)) q = Some tx.
Proof.
  intros E. cbn. rewrite deref_app; [assumption|]. eapply deref_allocated; eauto.
Qed.

Lemma deref_allocate_new (t : Transaction) (w : World) :
  deref (heap (allocate t w)) (List.length (heap w)) = Some t.
Proof.
  cbn. unfold deref. rewrite nth_error_app2 by lia. now rewrite Nat.sub_diag.
Qed.

(** C4, the signature gate of [AddTransaction]. With the mining sender it
    queues the transaction and returns true whatever key and signature it
    is given, nil included; with another sender it queues the transaction
    and returns true when [VerifyTransactionSignature] does, and when that
    returns false it returns false with the pool as it was: the same
    pointers, to the same transactions. [p] is the address of the new
    transaction [t]. *)
Theorem AddTransaction_signature_gate (sender recipient : string) (v : float32)
    (pk : option PublicKey) (s : option Signature) (w : World) :
  let t := {| senderBlockchainAddress := sender;
              recipientBlockchainAddress := recipient; value := v |} in
  let p := List.length (heap w) in
  let queued (w' : World) :=
    transactionPool (ledger w') = append (transactionPool (ledger w)) p /\
    deref (heap w') p = Some t in
  let unchanged (w' : World) :=
    transactionPool (ledger w') = transactionPool (ledger w) /\
    forall q tx, deref (heap w) q = Some tx -> deref (heap w') q = Some tx in
  (sender = MiningSender ->
     exists w', AddTransaction sender recipient v pk s w = Ok (true, w') /\
                queued w') /\
  (sender <> MiningSender ->
     VerifyTransactionSignature pk s p (allocate t w) = Ok (true, allocate t w) ->
     exists w', AddTransaction sender recipient v pk s w = Ok (true, w') /\
                queued w') /\
  (sender <> MiningSender ->
     VerifyTransactionSignature pk s p (allocate t w) = Ok (false, allocate t w) ->
     exists w', AddTransaction sender recipient v pk s w = Ok (false, w') /\
                unchanged w').
Proof.
  cbn zeta. rewrite AddTransaction_run. split; [|split].
  - intros ->. rewrite String.eqb_refl. eexists. split; [reflexivity|].
    split; [reflexivity|]. apply deref_allocate_new.
  - intros Hs Hv. apply String.eqb_neq in Hs. rewrite Hs, Hv.
    eexists. split; [reflexivity|].
    split; [reflexivity|]. apply deref_allocate_new.
  - intros Hs Hv. apply String.eqb_neq in Hs. rewrite Hs, Hv.
    eexists. split; [reflexivity|].
    split; [reflexivity|]. intros q tx. apply deref_allocate_old.
Qed.

(** C5, pool clearing: [CreateBlock] always returns; after it the pool is
    the empty slice, the new block is the last of the chain, and its
    transactions are the pool of before the call: the same slice of the
    same pointers, which the untouched store maps to the same senders,
    recipients and values, in the same order. *)
Theorem CreateBlock_clears_pool (now n : Z) (ph : list byte) (w : World) :
  exists b w',
    CreateBlock now n ph w = Ok (b, w') /\
    transactionPool (ledger w') = Some [] /\
    chain (ledger w') = chain (ledger w) ++ [b] /\
    transactions b = transactionPool (ledger w) /\
    List.length (elems (transactions b))
      = List.length (elems (transactionPool (ledger w))) /\
    map (deref (heap w')) (elems (transactions b))
      = map (deref (heap w)) (elems (transactionPool (ledger w))).
Proof.
  rewrite CreateBlock_run. cbn zeta. do 2 eexists.
  split; [reflexivity|]. cbn. repeat split; reflexivity.
Qed.

Lemma Mining_returns_true (fuel : nat) (now : Z) (w : World) (b : bool) (w' : World) :
  Mining fuel now w = Ok (b, w') -> b = true.
Proof.
  unfold Mining, bind, gets.
  destruct (AddTransaction _ _ _ _ _ w) as [[? w1]| |]; try discriminate.
  destruct (ProofOfWork fuel w1) as [[n w2]| |]; try discriminate.
  destruct (LastBlock w2) as [[last w3]| |]; try discriminate.
  rewrite CreateBlock_run. unfold ret. now intros [= <- _].
Qed.

(** C8, termination, on a ledger whose pool holds the transactions [txs]
    and whose chain ends in the block [last]: if [ValidProof] accepts some
    non-negative nonce [m] within [int] for the hash of [last] and the copy
    of the pool, there is a least such nonce [n], and the distance to it
    bounds the loop: started at any [a] up to [n] the search returns [n]
    within [n - a + 1] tests. So [ProofOfWork] returns [n], and [Mining],
    when [w] is the state it hands to [ProofOfWork] (the state [w0] it was
    called in, with the reward queued), returns, and returns true; true is
    all [Mining] ever returns. *)
Theorem ProofOfWork_terminates (w : World) (txs : list Transaction)
    (c : list Block) (last : Block) (m : Z) :
  loads (heap w) (elems (transactionPool (ledger w))) = Some txs ->
  chain (ledger w) = c ++ [last] ->
  let h := heap w ++ txs in
  let copy := Some (seq (List.length (heap w)) (List.length txs)) in
  let previousHash := Hash h last in
  0 <= m <= max_int ->
  ValidProof h m previousHash copy MiningDifficulty = Ok true ->
  exists n,
    least_nonce h previousHash copy n /\ n <= m /\
    (forall a fuel, 0 <= a <= n -> (Z.to_nat (n - a) < fuel)%nat ->
       search fuel h previousHash copy a = Ok n) /\
    (forall fuel, (Z.to_nat n < fuel)%nat ->
       ProofOfWork fuel w = Ok (n, set_heap h w)) /\
    (forall w0 fuel now, w = rewarded w0 -> (Z.to_nat n < fuel)%nat ->
       exists w', Mining fuel now w0 = Ok (true, w')) /\
    (forall w0 fuel now b w', Mining fuel now w0 = Ok (b, w') -> b = true).
Proof.
  intros L E. cbn zeta. intros Hm Hv.
  destruct (least_nonce_exists _ _ _ m (proj1 Hm) Hv) as (n & Hn & Hle).
  exists n. split; [assumption|]. split; [assumption|].
  pose proof Hn as (Hn0 & Hnv & Hnl).
  assert (Hsearch : forall a fuel, 0 <= a <= n -> (Z.to_nat (n - a) < fuel)%nat ->
            search fuel (heap w ++ txs) (Hash (heap w ++ txs) last)
              (Some (seq (List.length (heap w)) (List.length txs))) a = Ok n).
  { intros a fuel Ha Hf.
    apply (search_finds _ _ _ n (Z.to_nat (n - a))); try assumption; try lia.
    - unfold min_int. lia.
    - intros k Hk. apply Hnl. lia. }
  split; [exact Hsearch|]. split.
  { intros fuel Hf. rewrite (ProofOfWork_run fuel w txs c last L E).
    rewrite Hsearch; [reflexivity|lia|]. now rewrite Z.sub_0_r. }
  split.
  - intros w0 fuel now -> Hf.
    rewrite (Mining_run fuel now w0 txs c last L E).
    rewrite Hsearch; [|lia|now rewrite Z.sub_0_r]. eauto.
  - intros w0 fuel now b w'. apply Mining_returns_true.
Qed.

Lemma nth_error_seq_lt (a n i : nat) :
  (i < n)%nat -> nth_error (seq a n) i = Some (a + i)%nat.
Proof.
  revert a i. induction n as [|n IH]; intros a i Hi; [lia|].
  destruct i as [|i]; cbn; [f_equal; lia|].
  rewrite IH by lia. f_equal. lia.
Qed.

(** C9, [ProofOfWork] only reads the ledger: a call that returns leaves the
    chain, the pool and the other fields as they were, and every
    transaction object of before the call as it was. What it searched over
    is the slice [CopyTransactionPool] built: as long as the pool, made of
    pairwise distinct objects that did not exist before the call (so none
    is a transaction of the pool or of a block), the i-th with the sender,
    recipient and value of the i-th of the pool. *)
Theorem ProofOfWork_read_only (fuel : nat) (w : World) (n : Z) (w' : World) :
  wf w ->
  ProofOfWork fuel w = Ok (n, w') ->
  ledger w' = ledger w /\
  (forall q tx, deref (heap w) q = Some tx -> deref (heap w') q = Some tx) /\
  exists copy last,
    CopyTransactionPool w = Ok (Some copy, w') /\
    LastBlock w = Ok (last, w) /\
    search fuel (heap w') (Hash (heap w') last) (Some copy) 0 = Ok n /\
    List.length copy = List.length (elems (transactionPool (ledger w))) /\
    NoDup copy /\
    (forall q, In q copy ->
       ~ allocated (heap w) q /\
       ~ In q (elems (transactionPool (ledger w))) /\
       forall b, In b (chain (ledger w)) -> ~ In q (elems (transactions b))) /\
    (forall i p, nth_error (elems (transactionPool (ledger w))) i = Some p ->
       exists q t, nth_error copy i = Some q /\ q <> p /\
                   deref (heap w) p = Some t /\ deref (heap w') q = Some t).
Proof.
  intros Hwf. destruct (wf_pool_loads w Hwf) as [txs L].
  destruct Hwf as [Hpool Hchain].
  unfold ProofOfWork. unfold bind at 1. rewrite (CopyTransactionPool_run _ _ L).
  unfold bind at 1.
  destruct (LastBlock (set_heap (heap w ++ txs) w)) as [[last w1]| |] eqn:EL;
    try discriminate.
  apply LastBlock_inv in EL. destruct EL as (-> & c & E). cbn in E.
  unfold bind, gets, lift. cbn [heap set_heap].
  destruct (search fuel _ _ _ 0) as [n'| |] eqn:Hs; try discriminate.
  intros [= <- <-]. cbn [heap ledger set_heap].
  assert (Hfresh : forall q, In q (seq (List.length (heap w)) (List.length txs)) ->
                     ~ allocated (heap w) q)
    by (intros q Hq; apply in_seq in Hq; unfold allocated; lia).
  split; [reflexivity|]. split.
  { intros q tx Hq. rewrite deref_app; [assumption|]. eapply deref_allocated; eauto. }
  exists (seq (List.length (heap w)) (List.length txs)), last.
  split; [reflexivity|]. split; [now apply (LastBlock_run w c)|].
  split; [exact Hs|]. split; [rewrite length_seq; now apply loads_length in L|].
  split; [apply seq_NoDup|]. split.
  - intros q Hq. specialize (Hfresh q Hq). split; [assumption|]. split.
    + intros Hin. apply Hfresh. unfold wf_slice in Hpool.
      rewrite Forall_forall in Hpool. now apply Hpool.
    + intros b Hb Hin. apply Hfresh.
      rewrite Forall_forall in Hchain. specialize (Hchain b Hb).
      unfold wf_block, wf_slice in Hchain. rewrite Forall_forall in Hchain.
      now apply Hchain.
  - intros i p Hp. destruct (loads_nth _ _ _ i p L Hp) as (t & Ht & Hd).
    assert (Hi : (i < List.length txs)%nat) by (apply nth_error_Some; congruence).
    exists (List.length (heap w) + i)%nat, t.
    split; [now apply nth_error_seq_lt|]. split.
    + apply deref_allocated in Hd. unfold allocated in Hd. lia.
    + split; [assumption|]. unfold deref. rewrite nth_error_app2 by lia.
      now replace (List.length (heap w) + i - List.length (heap w))%nat with i by lia.
Qed.

(** C10, pending transactions do not count: an [AddTransaction] that
    returns true changes the pool, by the one new pointer, and nothing else
    of the ledger; the chain is as it was and so is
    [CalculateTotalAmount] of every address, which reads the blocks of the
    chain and never the pool. *)
Theorem pending_transactions_do_not_count (sender recipient : string) (v : float32)
    (pk : option PublicKey) (s : option Signature) (w w' : World) (a : string) :
  wf w ->
  AddTransaction sender recipient v pk s w = Ok (true, w') ->
  chain (ledger w') = chain (ledger w) /\
  blockchainAddress (ledger w') = blockchainAddress (ledger w) /\
  port (ledger w') = port (ledger w) /\
  transactionPool (ledger w')
    = append (transactionPool (ledger w)) (List.length (heap w)) /\
  (forall q tx, deref (heap w) q = Some tx -> deref (heap w') q = Some tx) /\
  CalculateTotalAmount a w' = CalculateTotalAmount a w.
Proof.
  intros [_ Hchain]. rewrite AddTransaction_run. cbn zeta.
  set (t := {| senderBlockchainAddress := sender;
               recipientBlockchainAddress := recipient; value := v |}).
  assert (Hw : Ok (true, enqueue (List.length (heap w)) (allocate t w))
               = Ok (true, w') -> w' = enqueue (List.length (heap w)) (allocate t w))
    by (now intros [= <-]).
  intros H.
  assert (E : w' = enqueue (List.length (heap w)) (allocate t w)).
  { destruct (String.eqb sender MiningSender); [now apply Hw|].
    destruct (VerifyTransactionSignature _ _ _ _) as [[[|] w1]| |];
      try discriminate. now apply Hw. }
  subst w'. cbn. repeat split.
  - intros q tx Hq. rewrite deref_app; [assumption|]. eapply deref_allocated; eauto.
  - unfold CalculateTotalAmount. cbn. now apply range_chain_app.
Qed.

Lemma range_transactions_fold (h : Heap) (a : string) (ps : list ptr) :
  forall (ts : list Transaction) (acc : float32),
    loads h ps = Some ts ->
    range_transactions h a ps acc = Ok (fold_left (tally a) ts acc).
Proof.
  induction ps as [|p ps IH]; intros ts acc; cbn [loads range_transactions].
  - now intros [= <-].
  - unfold load. destruct (deref h p) as [t|]; [|discriminate].
    destruct (loads h ps) as [ts'|]; [|discriminate].
    intros [= <-]. cbn [fold_left]. now apply IH.
Qed.

Lemma loads_app_inv (h : Heap) (ps qs : list ptr) (ts : list Transaction) :
  loads h (ps ++ qs) = Some ts ->
  exists ts1 ts2, loads h ps = Some ts1 /\ loads h qs = Some ts2 /\ ts = ts1 ++ ts2.
Proof.
  revert ts. induction ps as [|p ps IH]; intros ts; cbn [app loads].
  - intros H. now exists [], ts.
  - destruct (deref h p) as [t|]; [|discriminate].
    destruct (loads h (ps ++ qs)) as [ts'|]; [|discriminate].
    intros [= <-]. destruct (IH ts' eq_refl) as (ts1 & ts2 & -> & -> & ->).
    now exists (t :: ts1), ts2.
Qed.

Lemma range_chain_fold (h : Heap) (a : string) (c : list Block) :
  forall (ts : list Transaction) (acc : float32),
    loads h (chain_pointers c) = Some ts ->
    range_chain h a c acc = Ok (fold_left (tally a) ts acc).
Proof.
  induction c as [|b c IH]; intros ts acc; cbn [chain_pointers flat_map range_chain].
  - now intros [= <-].
  - intros L. apply loads_app_inv in L. destruct L as (ts1 & ts2 & L1 & L2 & ->).
    rewrite (range_transactions_fold _ _ _ ts1) by assumption.
    rewrite fold_left_app. now apply IH.
Qed.

Lemma exact_units (zop : Z -> Z -> Z) (x : float32) (t : Transaction)
    (r : float32) (u : Z) :
  exact zop x (value t) r = true -> f32_units x = Some u ->
  f32_units r = Some (zop u (units_of t)).
Proof.
  unfold exact, units_of. intros H Hx. rewrite Hx in H.
  destruct (f32_units (value t)) as [b|]; [|discriminate].
  destruct (f32_units r) as [c|]; [|discriminate].
  apply Z.eqb_eq in H. now subst.
Qed.

Lemma sum_units_cons (t : Transaction) (ts : list Transaction) :
  sum_units (t :: ts) = units_of t + sum_units ts.
Proof. reflexivity. Qed.

Lemma tally_exact_units (a : string) (acc : float32) (t : Transaction) (u : Z) :
  f32_units acc = Some u ->
  tally_exact a acc t = true ->
  f32_units (tally a acc t)
  = Some (u + (if String.eqb a (recipientBlockchainAddress t) then units_of t else 0)
            - (if String.eqb a (senderBlockchainAddress t) then units_of t else 0)).
Proof.
  intros Hu H. unfold tally_exact in H. apply andb_prop in H. destruct H as [Hr Hs].
  unfold tally.
  destruct (String.eqb a (recipientBlockchainAddress t));
    destruct (String.eqb a (senderBlockchainAddress t)).
  - apply (exact_units _ _ _ _ u) in Hr; [|assumption].
    apply (exact_units _ _ _ _ _ Hs) in Hr. rewrite Hr. f_equal; lia.
  - apply (exact_units _ _ _ _ u) in Hr; [|assumption]. rewrite Hr. f_equal; lia.
  - apply (exact_units _ _ _ _ u) in Hs; [|assumption]. rewrite Hs. f_equal; lia.
  - rewrite Hu. f_equal; lia.
Qed.

Lemma fold_tally_exact (a : string) (ts : list Transaction) :
  forall (acc : float32) (u : Z),
    f32_units acc = Some u ->
    no_rounding a acc ts = true ->
    f32_units (fold_left (tally a) ts acc) = Some (u + exact_balance a ts).
Proof.
  unfold exact_balance.
  induction ts as [|t ts IH]; intros acc u Hu; cbn [no_rounding fold_left].
  - intros _. unfold received, sent. cbn [filter sum_units fold_right].
    rewrite Hu. f_equal. lia.
  - intros H. apply andb_prop in H. destruct H as [Ht Hrest].
    rewrite (IH _ _ (tally_exact_units a acc t u Hu Ht) Hrest).
    unfold received, sent. cbn [filter].
    destruct (String.eqb a (recipientBlockchainAddress t));
      destruct (String.eqb a (senderBlockchainAddress t));
      rewrite ?sum_units_cons; f_equal; lia.
Qed.

(** C6 as amended, balance accounting: [CalculateTotalAmount] of [a] is the
    [float32] running total over the transactions of the chain in order,
    each adding its value if [a] is its recipient and then subtracting it
    if [a] is its sender; when none of these additions and subtractions
    rounds, it is exactly what [a] received minus what [a] sent. *)
Theorem CalculateTotalAmount_running_total (a : string) (w : World)
    (ts : list Transaction) :
  loads (heap w) (chain_pointers (chain (ledger w))) = Some ts ->
  CalculateTotalAmount a w = Ok (fold_left (tally a) ts f32_zero) /\
  (no_rounding a f32_zero ts = true ->
   f32_units (fold_left (tally a) ts f32_zero) = Some (exact_balance a ts)).
Proof.
  intros L. split.
  - unfold CalculateTotalAmount. now apply range_chain_fold.
  - intros H. now rewrite (fold_tally_exact a ts f32_zero 0 eq_refl H).
Qed.

(** C7 as amended, signature verification and nil: a nil signature makes
    [VerifyTransactionSignature] panic, whatever the key and the
    transaction, and so [AddTransaction] for any sender but the mining one;
    with a signature that is not nil both return what [ecdsa.Verify] returns
    on the key, the digest of the transaction and the signature's [R] and
    [S], a boolean whenever [ecdsa.Verify] returns one, its panic when it
    panics. With the mining sender [AddTransaction] returns true whatever
    the key and the signature. *)
Theorem VerifyTransactionSignature_outcome (pk : option PublicKey) (w : World) :
  (forall t, VerifyTransactionSignature pk None t w = Panic NilDereference) /\
  (forall sender recipient v, sender <> MiningSender ->
     AddTransaction sender recipient v pk None w = Panic NilDereference) /\
  (forall t sig b,
     ecdsa_Verify pk (sha256_Sum256 (marshal_or_nil (ptr_json (heap w) t)))
       (utils.R sig) (utils.S sig) = Ok b ->
     VerifyTransactionSignature pk (Some sig) t w = Ok (b, w)) /\
  (forall t sig e,
     ecdsa_Verify pk (sha256_Sum256 (marshal_or_nil (ptr_json (heap w) t)))
       (utils.R sig) (utils.S sig) = Panic e ->
     VerifyTransactionSignature pk (Some sig) t w = Panic e) /\
  (forall sender recipient v sig b, sender <> MiningSender ->
     ecdsa_Verify pk
       (sha256_Sum256 (marshal_or_nil (Transaction_json
          {| senderBlockchainAddress := sender;
             recipientBlockchainAddress := recipient; value := v |})))
       (utils.R sig) (utils.S sig) = Ok b ->
     exists w', AddTransaction sender recipient v pk (Some sig) w = Ok (b, w')) /\
  (forall recipient v s,
     exists w', AddTransaction MiningSender recipient v pk s w = Ok (true, w')).
Proof.
  split; [reflexivity|]. split; [|split; [|split; [|split]]].
  - intros sender recipient v Hs. rewrite AddTransaction_run.
    apply String.eqb_neq in Hs. now rewrite Hs.
  - intros t sig b H. unfold VerifyTransactionSignature, lift. now rewrite H.
  - intros t sig e H. unfold VerifyTransactionSignature, lift. now rewrite H.
  - intros sender recipient v sig b Hs H. rewrite AddTransaction_run.
    apply String.eqb_neq in Hs. rewrite Hs.
    unfold VerifyTransactionSignature, lift, ptr_json.
    rewrite deref_allocate_new, H. destruct b; eauto.
  - intros recipient v s. rewrite AddTransaction_run, String.eqb_refl. eauto.
Qed.

(** ** More on the operations *)

Lemma AddTransaction_Ok_inv (sender recipient : string) (v : float32)
    (pk : option PublicKey) (s : option Signature) (w : World) (b : bool) (w' : World) :
  AddTransaction sender recipient v pk s w = Ok (b, w') ->
  let t := {| senderBlockchainAddress := sender;
              recipientBlockchainAddress := recipient; value := v |} in
  w' = if b then enqueue (List.length (heap w)) (allocate t w) else allocate t w.
Proof.
  rewrite AddTransaction_run. cbn zeta.
  destruct (String.eqb sender MiningSender); [now intros [= <- <-]|].
  destruct (VerifyTransactionSignature _ _ _ _) as [[[|] w1]| |] eqn:E;
    try discriminate.
  - now intros [= <- <-].
  - intros [= <- <-]. reflexivity.
Qed.

Lemma ProofOfWork_empty_chain (fuel : nat) (w : World) (r : Z * World) :
  chain (ledger w) = [] -> ProofOfWork fuel w <> Ok r.
Proof.
  intros E. unfold ProofOfWork. unfold bind at 1.
  destruct (CopyTransactionPool w) as [[copy w1]| |] eqn:Hc; try discriminate.
  assert (Hl : ledger w1 = ledger w).
  { unfold CopyTransactionPool, bind, gets in Hc.
    destruct (copy_loop _ _ w) as [[l w2]| |] eqn:Hloop; try discriminate.
    injection Hc as _ <-. clear - Hloop.
    revert Hloop. generalize (@nil ptr) as acc.
    generalize (elems (transactionPool (ledger w))) as pool.
    intros pool. revert w. induction pool as [|p pool IH]; intros w acc; cbn [copy_loop].
    - now intros [= _ <-].
    - unfold bind at 1. unfold lift.
      destruct (load (heap w) p) as [tx| |]; try discriminate.
      unfold bind at 1. unfold NewTransaction.
      intros H. apply IH in H. exact H. }
  unfold bind at 1. unfold LastBlock. rewrite Hl, E. discriminate.
Qed.

(** A call of [Mining] that returns, step by step. *)
Lemma Mining_Ok_inv (fuel : nat) (now : Z) (w : World) (b : bool) (w' : World) :
  wf w ->
  Mining fuel now w = Ok (b, w') ->
  exists txs c last n,
    loads (heap (rewarded w)) (elems (transactionPool (ledger (rewarded w)))) = Some txs /\
    chain (ledger w) = c ++ [last] /\
    search fuel (heap (rewarded w) ++ txs) (Hash (heap (rewarded w) ++ txs) last)
      (Some (seq (List.length (heap (rewarded w))) (List.length txs))) 0 = Ok n /\
    b = true /\
    w' = set_transactionPool (Some [])
           (set_chain (chain (ledger w)
                         ++ [NewBlock now n (Hash (heap (rewarded w) ++ txs) last)
                               (transactionPool (ledger (rewarded w)))])
              (set_heap (heap (rewarded w) ++ txs) (rewarded w))).
Proof.
  intros Hwf H.
  pose proof (wf_enqueue_allocate (reward w) w Hwf) as H1. fold (rewarded w) in H1.
  destruct (wf_pool_loads _ H1) as [txs L].
  assert (D : chain (ledger w) = [] \/ exists c last, chain (ledger w) = c ++ [last]).
  { destruct (chain (ledger w)) as [|b0 c0]; [now left|right].
    assert (Hne : b0 :: c0 <> []) by discriminate.
    destruct (exists_last Hne) as (c & last & Ec). now exists c, last. }
  destruct D as [E|(c & last & E)].
  - exfalso. revert H. unfold Mining. unfold bind at 1. unfold gets at 1.
    unfold bind at 1. rewrite AddTransaction_run, String.eqb_refl.
    fold (reward w). fold (rewarded w). unfold bind at 1.
    destruct (ProofOfWork fuel (rewarded w)) as [r| |] eqn:Hp; try discriminate.
    now apply ProofOfWork_empty_chain in Hp.
  - rewrite (Mining_run fuel now w txs c last L E) in H.
    destruct (search fuel _ _ _ 0) as [n| |] eqn:Hs; try discriminate.
    injection H as <- <-.
    exists txs, c, last, n. repeat split; assumption.
Qed.

Lemma chain_pointers_app (c c' : list Block) :
  chain_pointers (c ++ c') = chain_pointers c ++ chain_pointers c'.
Proof. unfold chain_pointers. apply flat_map_app. Qed.

Lemma wf_chain_pointers (h : Heap) (c : list Block) :
  Forall (wf_block h) c -> Forall (allocated h) (chain_pointers c).
Proof.
  induction 1 as [|b c Hb _ IH]; cbn; [constructor|].
  apply Forall_app. split; assumption.
Qed.

Lemma wf_chain_loads (w : World) :
  wf w -> exists ts, loads (heap w) (chain_pointers (chain (ledger w))) = Some ts.
Proof.
  intros [_ Hc]. now apply loads_allocated, wf_chain_pointers.
Qed.

Lemma loads_app_intro (h : Heap) (ps qs : list ptr) (ts us : list Transaction) :
  loads h ps = Some ts -> loads h qs = Some us -> loads h (ps ++ qs) = Some (ts ++ us).
Proof.
  revert ts. induction ps as [|p ps IH]; intros ts; cbn [loads app].
  - now intros [= <-].
  - destruct (deref h p) as [t|]; [|discriminate].
    destruct (loads h ps) as [ts'|]; [|discriminate].
    intros [= <-] Hq. now rewrite (IH ts' eq_refl Hq).
Qed.

(** X1, the chain of a reachable ledger is never empty: it ends in a block,
    which [LastBlock] returns, leaving the world as it was; the index
    [len(bc.chain)-1] is never out of range there. *)
Theorem LastBlock_of_reachable (w : World) :
  reachable w ->
  exists c b, chain (ledger w) = c ++ [b] /\ LastBlock w = Ok (b, w).
Proof.
  intros Hr. destruct (inv_reachable w Hr) as (_ & Hne & _).
  destruct (exists_last Hne) as (c & b & E).
  exists c, b. split; [exact E|]. now apply (LastBlock_run w c).
Qed.

(** X2, one call of [Mining], one block: a call that returns on a
    well-formed ledger appends exactly one block to the chain. The block is
    stamped [now], holds the hash of the block that was last, and its
    transactions are the pending ones followed by the reward (from the
    mining sender to the ledger's address, of [MiningReward]); the pool is
    left empty, address and port are as they were, and so is every
    transaction object of before the call. *)
Theorem Mining_seals_one_block (fuel : nat) (now : Z) (w : World) (b : bool)
    (w' : World) :
  wf w ->
  Mining fuel now w = Ok (b, w') ->
  exists block c last,
    chain (ledger w) = c ++ [last] /\
    chain (ledger w') = chain (ledger w) ++ [block] /\
    timestamp block = now /\
    previousHash block = Hash (heap w') last /\
    transactions block
      = append (transactionPool (ledger w)) (List.length (heap w)) /\
    deref (heap w') (List.length (heap w)) = Some (reward w) /\
    transactionPool (ledger w') = Some [] /\
    blockchainAddress (ledger w') = blockchainAddress (ledger w) /\
    port (ledger w') = port (ledger w) /\
    (forall q tx, deref (heap w) q = Some tx -> deref (heap w') q = Some tx).
Proof.
  intros Hwf H.
  destruct (Mining_Ok_inv fuel now w b w' Hwf H) as (txs & c & last & n & L & E & Hs & _ & ->).
  eexists. exists c, last. split; [exact E|]. cbn.
  split; [reflexivity|]. split; [reflexivity|]. split; [reflexivity|].
  split; [reflexivity|]. split.
  - rewrite deref_app; [apply deref_allocate_new|].
    unfold allocated. rewrite length_app. cbn. lia.
  - repeat split. intros q tx Hq.
    rewrite <- app_assoc. rewrite deref_app; [assumption|].
    eapply deref_allocated; eauto.
Qed.

Lemma evolves_prefix (w w' : World) :
  reachable w -> evolves w w' ->
  reachable w' /\
  (exists blocks, chain (ledger w') = chain (ledger w) ++ blocks) /\
  (exists txs, heap w' = heap w ++ txs).
Proof.
  intros Hr. induction 1 as [|w1 sender recipient v pk s b w' _ IH H
                            |w1 fuel now b w' _ IH H].
  - split; [assumption|]. split; [exists []|exists []]; now rewrite app_nil_r.
  - destruct IH as (Hr1 & (blocks & Hc) & (txs & Hh)).
    split; [eapply reach_add; eauto|].
    apply AddTransaction_Ok_inv in H. cbn zeta in H. subst w'.
    destruct b; cbn; (split; [now exists blocks|]);
      eexists; rewrite Hh, <- app_assoc; reflexivity.
  - destruct IH as (Hr1 & (blocks & Hc) & (txs & Hh)).
    split; [eapply reach_mine; eauto|].
    destruct (inv_reachable w1 Hr1) as (Hwf & _).
    destruct (Mining_Ok_inv fuel now w1 b w' Hwf H)
      as (txs' & c & last & n & _ & _ & _ & _ & ->).
    cbn. split.
    + eexists. rewrite Hc, <- app_assoc. reflexivity.
    + eexists. rewrite Hh, <- !app_assoc. reflexivity.
Qed.

(** X3, the history is append-only: whatever calls of [AddTransaction] and
    [Mining] lead from a reachable ledger to a later state, the chain of
    before is a prefix of the later chain and the store of before a prefix of
    the later store. A block keeps its index, its fields and its hash. *)
Theorem history_is_append_only (w w' : World) :
  reachable w -> evolves w w' ->
  (exists blocks, chain (ledger w') = chain (ledger w) ++ blocks) /\
  (exists txs, heap w' = heap w ++ txs) /\
  forall i b, nth_error (chain (ledger w)) i = Some b ->
    nth_error (chain (ledger w')) i = Some b /\
    Hash (heap w') b = Hash (heap w) b.
Proof.
  intros Hr He.
  destruct (evolves_prefix w w' Hr He) as (_ & (blocks & Hc) & (txs & Hh)).
  split; [now exists blocks|]. split; [now exists txs|].
  intros i b Hb. split.
  - rewrite Hc, nth_error_app1; [assumption|]. apply nth_error_Some. congruence.
  - rewrite Hh. apply Hash_app.
    destruct (inv_reachable w Hr) as ((_ & Hwf) & _).
    rewrite Forall_forall in Hwf. apply Hwf. eapply nth_error_In; eauto.
Qed.

(** X4, balances never panic: on a reachable ledger [CalculateTotalAmount]
    returns an amount for every address; it meets no nil transaction. *)
Theorem CalculateTotalAmount_of_reachable (a : string) (w : World) :
  reachable w -> exists total, CalculateTotalAmount a w = Ok total.
Proof.
  intros Hr. destruct (inv_reachable w Hr) as (Hwf & _).
  destruct (wf_chain_loads w Hwf) as [ts L].
  exists (fold_left (tally a) ts f32_zero).
  unfold CalculateTotalAmount. apply range_chain_fold. exact L.
Qed.

Lemma fold_tally_strangers (a : string) (ts : list Transaction) (acc : float32) :
  Forall (stranger a) ts -> fold_left (tally a) ts acc = acc.
Proof.
  induction 1 as [|t ts [Hs Hr] _ IH]; cbn [fold_left]; [reflexivity|].
  unfold tally at 2.
  apply String.eqb_neq in Hs. apply String.eqb_neq in Hr. now rewrite Hs, Hr.
Qed.

(** X5, an address no mined transaction names has the balance [+0]: if [a]
    is neither the sender nor the recipient of any transaction of the chain,
    [CalculateTotalAmount] returns the zero it started from. *)
Theorem stranger_has_zero_balance (a : string) (w : World) (ts : list Transaction) :
  loads (heap w) (chain_pointers (chain (ledger w))) = Some ts ->
  Forall (stranger a) ts ->
  CalculateTotalAmount a w = Ok f32_zero.
Proof.
  intros L Hs. unfold CalculateTotalAmount.
  rewrite (range_chain_fold _ _ _ ts) by assumption.
  now rewrite fold_tally_strangers.
Qed.

(** The balances after a call of [Mining] that returns: the transactions of
    the chain, then the pending ones, then the reward. *)
Lemma Mining_balance (fuel : nat) (now : Z) (w : World) (b : bool) (w' : World)
    (a : string) :
  wf w ->
  Mining fuel now w = Ok (b, w') ->
  exists ts txs,
    loads (heap w) (chain_pointers (chain (ledger w))) = Some ts /\
    loads (heap w) (elems (transactionPool (ledger w))) = Some txs /\
    CalculateTotalAmount a w'
    = Ok (fold_left (tally a) (txs ++ [reward w]) (fold_left (tally a) ts f32_zero)).
Proof.
  intros Hwf H.
  destruct (wf_chain_loads w Hwf) as [ts Lc].
  destruct (wf_pool_loads w Hwf) as [txs Lp].
  exists ts, txs. split; [exact Lc|]. split; [exact Lp|].
  destruct (Mining_Ok_inv fuel now w b w' Hwf H)
    as (copies & c & last & n & _ & _ & _ & _ & ->).
  unfold CalculateTotalAmount. cbn [heap ledger chain set_transactionPool set_chain set_heap].
  rewrite <- fold_left_app. apply range_chain_fold.
  rewrite chain_pointers_app. apply loads_app_intro.
  - unfold rewarded, enqueue, allocate. cbn [heap set_heap set_transactionPool].
    rewrite <- app_assoc. now apply loads_app.
  - unfold chain_pointers. cbn [flat_map NewBlock transactions]. rewrite app_nil_r.
    unfold rewarded, enqueue, allocate, append.
    cbn [heap ledger transactionPool set_heap set_transactionPool elems].
    apply loads_app_intro.
    + rewrite <- app_assoc. now apply loads_app.
    + cbn [loads]. unfold deref. rewrite <- app_assoc.
      rewrite nth_error_app2 by lia. now rewrite Nat.sub_diag.
Qed.

(** X6, the first block pays the reward: after [NewBlockchain] for an
    address other than the mining sender and one [Mining] that returns, the
    balance of that address is [MiningReward], the balance of the mining
    sender is [-1], and every other address has [+0]. *)
Theorem first_mining_pays_the_reward (now : Z) (addr : string) (port : Z)
    (h : Heap) (w0 : World) (fuel : nat) (now' : Z) (b : bool) (w1 : World) :
  NewBlockchain now addr port h = Ok w0 ->
  Mining fuel now' w0 = Ok (b, w1) ->
  addr <> MiningSender ->
  CalculateTotalAmount addr w1 = Ok MiningReward /\
  CalculateTotalAmount MiningSender w1 = Ok (f32_of_Z (-1)) /\
  forall a, a <> addr -> a <> MiningSender ->
    CalculateTotalAmount a w1 = Ok f32_zero.
Proof.
  intros Hnew Hmine Haddr.
  pose proof (inv_NewBlockchain _ _ _ _ _ Hnew) as (Hwf & _).
  assert (Hbal : forall a, CalculateTotalAmount a w1
                           = Ok (tally a f32_zero
                                   {| senderBlockchainAddress := MiningSender;
                                      recipientBlockchainAddress := addr;
                                      value := MiningReward |})).
  { intros a.
    destruct (Mining_balance fuel now' w0 b w1 a Hwf Hmine) as (ts & txs & Lc & Lp & ->).
    unfold NewBlockchain in Hnew. rewrite CreateBlock_run in Hnew.
    injection Hnew as <-. cbn in Lc, Lp.
    injection Lc as <-. injection Lp as <-. reflexivity. }
  assert (Hs : String.eqb MiningSender addr = false)
    by (apply String.eqb_neq; congruence).
  apply String.eqb_neq in Haddr.
  rewrite !Hbal. unfold tally.
  cbn [value recipientBlockchainAddress senderBlockchainAddress].
  rewrite !String.eqb_refl, Haddr, Hs.
  split; [reflexivity|]. split; [reflexivity|].
  intros a Ha Hm. rewrite Hbal. unfold tally.
  cbn [value recipientBlockchainAddress senderBlockchainAddress].
  apply String.eqb_neq in Ha. apply String.eqb_neq in Hm. now rewrite Ha, Hm.
Qed.


Lemma substring_zeros (j : nat) :
  forall (k : nat) (s : string),
    (j <= k)%nat -> substring 0 k s = repeat_string "0" k ->
    substring 0 j s = repeat_string "0" j.
Proof.
  induction j as [|j IH]; intros k s Hj H.
  - now destruct s.
  - destruct k as [|k]; [lia|]. destruct s as [|ch s]; cbn in H |- *.
    + discriminate.
    + injection H as -> H. f_equal. apply (IH k); [lia|assumption].
Qed.

(** X8, a proof of work holds at every lower difficulty: a nonce
    [ValidProof] accepts at difficulty [d] is accepted at any difficulty from
    zero up to [d]. *)
Theorem ValidProof_at_lower_difficulty (h : Heap) (n : Z) (ph : list byte)
    (txs : slice ptr) (d d' : Z) :
  0 <= d' <= d ->
  ValidProof h n ph txs d = Ok true ->
  ValidProof h n ph txs d' = Ok true.
Proof.
  intros Hd. unfold ValidProof, strings_Repeat, string_prefix.
  assert (H0 : (d <? 0) = false) by (apply Z.ltb_ge; lia).
  assert (H0' : (d' <? 0) = false) by (apply Z.ltb_ge; lia).
  rewrite H0, H0'. cbn [orb].
  set (s := Sprintf_x _).
  destruct (Z.of_nat (String.length s) <? d) eqn:Hlen; [discriminate|].
  apply Z.ltb_ge in Hlen.
  assert (Hlen' : (Z.of_nat (String.length s) <? d') = false) by (apply Z.ltb_ge; lia).
  rewrite Hlen'. intros [= E]. apply String.eqb_eq in E. f_equal.
  apply String.eqb_eq. apply (substring_zeros _ (Z.to_nat d)); [lia|assumption].
Qed.

Lemma search_constant (h : Heap) (ph : list byte) (txs : slice ptr) :
  (forall n, ValidProof h n ph txs MiningDifficulty
             = ValidProof h 0 ph txs MiningDifficulty) ->
  ValidProof h 0 ph txs MiningDifficulty = Ok false ->
  forall fuel a, search fuel h ph txs a = Timeout.
Proof.
  intros Hc H0 fuel. induction fuel as [|fuel IH]; intros a; cbn [search]; [reflexivity|].
  now rewrite Hc, H0.
Qed.

(** X9, a block that does not encode: [Hash] drops the error of
    [json.Marshal] and hashes the nil encoding. If the candidate blocks of a
    search do not encode (a pending transaction whose value is NaN or
    infinite), they all hash alike, to the digest of the empty input, so
    [ValidProof] says the same of every nonce: [ProofOfWork] returns nonce
    [0] at once if that digest is accepted, and never returns if not. *)
Theorem ProofOfWork_without_encoding (w : World) (txs : list Transaction)
    (c : list Block) (last : Block) :
  loads (heap w) (elems (transactionPool (ledger w))) = Some txs ->
  chain (ledger w) = c ++ [last] ->
  let h := heap w ++ txs in
  let copy := Some (seq (List.length (heap w)) (List.length txs)) in
  let previousHash := Hash h last in
  (forall n, json_Marshal (Block_json h {| timestamp := 0; nonce := n;
                                           previousHash := previousHash;
                                           transactions := copy |}) = None) ->
  (forall n, Hash h {| timestamp := 0; nonce := n; previousHash := previousHash;
                       transactions := copy |} = sha256_Sum256 []) /\
  (ValidProof h 0 previousHash copy MiningDifficulty = Ok true ->
   forall fuel, ProofOfWork (S fuel) w = Ok (0, set_heap h w)) /\
  (ValidProof h 0 previousHash copy MiningDifficulty = Ok false ->
   forall fuel, ProofOfWork fuel w = Timeout).
Proof.
  intros L E. cbn zeta. intros Hnone.
  assert (Hhash : forall n,
            Hash (heap w ++ txs)
              {| timestamp := 0; nonce := n;
                 previousHash := Hash (heap w ++ txs) last;
                 transactions := Some (seq (List.length (heap w)) (List.length txs)) |}
            = sha256_Sum256 []).
  { intros n. unfold Hash at 1. unfold marshal_or_nil. now rewrite Hnone. }
  split; [exact Hhash|]. split.
  - intros Hv fuel. rewrite (ProofOfWork_run (S fuel) w txs c last L E).
    cbn [search]. now rewrite Hv.
  - intros Hv fuel. rewrite (ProofOfWork_run fuel w txs c last L E).
    rewrite search_constant; [reflexivity| |exact Hv].
    intros n. unfold ValidProof. now rewrite !Hhash.
Qed.

(** X10, no duplicate detection: a transaction submitted twice, and accepted
    twice, is queued twice, as two objects with the same sender, recipient
    and value at the end of the pool. *)
Theorem AddTransaction_keeps_duplicates (sender recipient : string) (v : float32)
    (pk : option PublicKey) (s : option Signature) (w w1 w2 : World) :
  AddTransaction sender recipient v pk s w = Ok (true, w1) ->
  AddTransaction sender recipient v pk s w1 = Ok (true, w2) ->
  let t := {| senderBlockchainAddress := sender;
              recipientBlockchainAddress := recipient; value := v |} in
  let p := List.length (heap w) in
  transactionPool (ledger w2)
    = Some (elems (transactionPool (ledger w)) ++ [p; S p]) /\
  deref (heap w2) p = Some t /\
  deref (heap w2) (S p) = Some t.
Proof.
  intros H1 H2. apply AddTransaction_Ok_inv in H1, H2. cbn zeta in *. subst w1 w2.
  cbn [enqueue allocate set_heap set_transactionPool heap ledger transactionPool].
  rewrite length_app, <- !app_assoc. cbn [List.length app]. rewrite Nat.add_1_r.
  split; [|split].
  - unfold append. cbn [elems]. now rewrite <- app_assoc.
  - unfold deref. rewrite nth_error_app2 by lia. now rewrite Nat.sub_diag.
  - unfold deref. rewrite nth_error_app2 by lia.
    now replace (S (List.length (heap w)) - List.length (heap w))%nat with 1%nat by lia.
Qed.

Lemma Block_json_app (h d : Heap) (b : Block) :
  wf_block h b -> Block_json (h ++ d) b = Block_json h b.
Proof.
  intros H. unfold Block_json. now rewrite slice_json_app.
Qed.

Lemma map_Block_json_app (h d : Heap) (c : list Block) :
  Forall (wf_block h) c -> map (Block_json (h ++ d)) c = map (Block_json h) c.
Proof.
  intros H. apply map_ext_in. intros b Hb. apply Block_json_app.
  rewrite Forall_forall in H. now apply H.
Qed.

(** X11, the ledger's JSON shows mined blocks only: [Blockchain.MarshalJSON]
    encodes the chain and not the pool, so an [AddTransaction], accepted or
    turned down, leaves the encoding of a well-formed ledger as it was. *)
Theorem MarshalJSON_leaves_out_the_pool (sender recipient : string) (v : float32)
    (pk : option PublicKey) (s : option Signature) (w : World) (b : bool) (w' : World) :
  wf w ->
  AddTransaction sender recipient v pk s w = Ok (b, w') ->
  Blockchain_json (heap w') (ledger w') = Blockchain_json (heap w) (ledger w) /\
  Blockchain_MarshalJSON w' = Blockchain_MarshalJSON w.
Proof.
  intros [_ Hc] H. apply AddTransaction_Ok_inv in H. cbn zeta in H. subst w'.
  assert (E : Blockchain_json
                (heap w ++ [ {| senderBlockchainAddress := sender;
                                recipientBlockchainAddress := recipient;
                                value := v |} ]) (ledger w)
              = Blockchain_json (heap w) (ledger w)).
  { unfold Blockchain_json. destruct (chain (ledger w)) as [|b0 c] eqn:Ec; [reflexivity|].
    now rewrite map_Block_json_app. }
  unfold Blockchain_MarshalJSON.
  destruct b; cbn [heap ledger enqueue allocate set_heap set_transactionPool];
    (split; [|f_equal]); try exact E;
    unfold Blockchain_json in *; cbn [chain] in *; exact E.
Qed.

(** X12, [CopyTransactionPool] on a well-formed ledger always returns, and
    never the nil slice: the copy reads as the same transactions as the
    pool, the ledger is left as it was, and for a pool that is nil or empty
    the copy is the empty slice and nothing is allocated. *)
Theorem CopyTransactionPool_of_wf (w : World) :
  wf w ->
  exists copy w',
    CopyTransactionPool w = Ok (Some copy, w') /\
    ledger w' = ledger w /\
    loads (heap w') copy = loads (heap w) (elems (transactionPool (ledger w))) /\
    (elems (transactionPool (ledger w)) = [] -> copy = [] /\ w' = w).
Proof.
  intros Hwf. destruct (wf_pool_loads w Hwf) as [txs L].
  do 2 eexists. split; [apply (CopyTransactionPool_run w txs L)|].
  split; [reflexivity|]. split.
  - cbn. rewrite L. apply loads_seq.
  - intros E. rewrite E in L. injection L as <-. cbn.
    split; [reflexivity|]. rewrite app_nil_r. now destruct w.
Qed.

Lemma search_no_panic (fuel : nat) (h : Heap) (ph : list byte) (txs : slice ptr) :
  forall a, (exists n, search fuel h ph txs a = Ok n) \/ search fuel h ph txs a = Timeout.
Proof.
  induction fuel as [|fuel IH]; intros a; cbn [search]; [now right|].
  destruct (ValidProof_total h a ph txs) as [[|] E]; rewrite E; [left; eauto|apply IH].
Qed.

(** X13, [Mining] never panics on a reachable ledger: whatever the budget
    of the search, it returns true or is still searching. *)
Theorem Mining_of_reachable (fuel : nat) (now : Z) (w : World) :
  reachable w ->
  (exists w', Mining fuel now w = Ok (true, w')) \/ Mining fuel now w = Timeout.
Proof.
  intros Hr. pose proof (inv_reachable w Hr) as Hinv.
  pose proof (inv_enqueue_allocate (reward w) w Hinv) as H1. fold (rewarded w) in H1.
  destruct (wf_pool_loads _ (proj1 H1)) as [txs L].
  destruct Hinv as (_ & Hne & _).
  destruct (exists_last Hne) as (c & last & E).
  rewrite (Mining_run fuel now w txs c last L E).
  destruct (search_no_panic fuel (heap (rewarded w) ++ txs)
              (Hash (heap (rewarded w) ++ txs) last)
              (Some (seq (List.length (heap (rewarded w))) (List.length txs))) 0)
    as [[n Hs]|Hs]; rewrite Hs; [left; eauto|now right].
Qed.

Lemma NoDup_snoc (l : list ptr) (p : ptr) :
  NoDup l -> ~ In p l -> NoDup (l ++ [p]).
Proof.
  intros Hl Hp. apply NoDup_app; [assumption|constructor; [easy|constructor]|].
  intros a Ha [<-|[]]. contradiction.
Qed.

Lemma held_fresh (w : World) :
  wf w -> ~ In (List.length (heap w)) (held w).
Proof.
  intros [Hp Hc] Hin. unfold held in Hin. apply in_app_or in Hin.
  apply wf_chain_pointers in Hc. unfold wf_slice in Hp.
  rewrite Forall_forall in Hp, Hc.
  destruct Hin as [Hin|Hin]; [apply Hc in Hin|apply Hp in Hin];
    unfold allocated in Hin; lia.
Qed.

(** X14, no transaction is held twice: in a reachable ledger the
    transaction objects of the blocks and of the pool are pairwise distinct,
    and all allocated; a pending transaction is mined once and counts once
    in a balance. *)
Theorem no_transaction_is_held_twice (w : World) :
  reachable w -> NoDup (held w) /\ Forall (allocated (heap w)) (held w).
Proof.
  intros Hr.
  assert (Hall : Forall (allocated (heap w)) (held w)).
  { destruct (inv_reachable w Hr) as ((Hp & Hc) & _).
    apply Forall_app. split; [now apply wf_chain_pointers|exact Hp]. }
  split; [|exact Hall]. clear Hall.
  induction Hr as [now addr port h w H|w sender recipient v pk s b w' Hr IH H
                  |w fuel now b w' Hr IH H].
  - unfold NewBlockchain in H. rewrite CreateBlock_run in H.
    injection H as <-. cbn. constructor.
  - destruct (inv_reachable w Hr) as (Hwf & _).
    apply AddTransaction_Ok_inv in H. cbn zeta in H. subst w'.
    destruct b; [|exact IH].
    unfold held. cbn. rewrite app_assoc. apply NoDup_snoc; [exact IH|].
    now apply held_fresh.
  - destruct (inv_reachable w Hr) as (Hwf & _).
    destruct (Mining_Ok_inv fuel now w b w' Hwf H)
      as (txs & c & last & n & _ & _ & _ & _ & ->).
    unfold held. cbn. rewrite app_nil_r, chain_pointers_app.
    unfold chain_pointers at 2. cbn. rewrite app_nil_r, app_assoc.
    apply NoDup_snoc; [exact IH|]. now apply held_fresh.
Qed.

(** X15, mining settles the pool: after a call of [Mining] that returns on
    a well-formed ledger, every balance is the balance of before the call
    carried through the pending transactions, in the order they were
    submitted, and then through the reward. *)
Theorem Mining_settles_the_pool (fuel : nat) (now : Z) (w : World) (b : bool)
    (w' : World) (a : string) :
  wf w ->
  Mining fuel now w = Ok (b, w') ->
  exists before txs,
    CalculateTotalAmount a w = Ok before /\
    loads (heap w) (elems (transactionPool (ledger w))) = Some txs /\
    CalculateTotalAmount a w' = Ok (fold_left (tally a) (txs ++ [reward w]) before).
Proof.
  intros Hwf H.
  destruct (Mining_balance fuel now w b w' a Hwf H) as (ts & txs & Lc & Lp & Hb).
  exists (fold_left (tally a) ts f32_zero), txs.
  split; [|split; assumption].
  unfold CalculateTotalAmount. now apply range_chain_fold.
Qed.

End Properties.

(** ** The ledger at work: the properties on the examples *)

Module Examples.

Import Sample.

Lemma SHA256_Sum256_size (msg : list byte) :
  List.length (SHA256.Sum256 msg) = 32%nat.
Proof.
  unfold SHA256.Sum256.
  destruct (SHA256.blocks _ _ SHA256.H0) as [[[[[[[a b] c] d] e] f] g] h].
  reflexivity.
Qed.

Example SHA256_Sum256_abc :
  Sprintf_x (SHA256.Sum256 (list_byte_of_string "abc"))
  = "ba7816bf8f01cfea414140de5dae2223b00361a396177a9cb410ff61f20015ad".
Proof. vm_compute. reflexivity. Qed.

Example key_of_7 : ECDSA.mul 7 (Some ECDSA.G) = Some key.
Proof. reflexivity. Qed.

Example signed_with_7 :
  ECDSA.Sign 7 2 (SHA256.Sum256 (marshal_or_nil (Transaction_json transfer)))
  = (6, 15).
Proof. vm_compute. reflexivity. Qed.

Lemma created_ok : NewBlockchain 1700000000000002251 "A" 5000 [] = Ok created.
Proof. vm_compute. reflexivity. Qed.

Lemma mined_ok : Mining 2 1700000000000002300 created = Ok (true, mined).
Proof. vm_compute. reflexivity. Qed.

Lemma created_reachable : reachable created.
Proof. eapply reach_new. exact created_ok. Qed.

Lemma mined_reachable : reachable mined.
Proof. eapply reach_mine; [exact created_reachable|exact mined_ok]. Qed.

Lemma books_reachable : reachable books.
Proof.
  assert (H0 : reachable opened)
    by (eapply (reach_new 1700000000000000770 "A" 5000 []);
        vm_compute; reflexivity).
  assert (H1 : reachable queued1)
    by (eapply (reach_add opened MiningSender "B" f32_half None None true);
        [exact H0|vm_compute; reflexivity]).
  assert (H2 : reachable queued2)
    by (eapply (reach_add queued1 MiningSender MiningSender
                  (f32_of_Z 16777216) None None true);
        [exact H1|vm_compute; reflexivity]).
  assert (H3 : reachable queued3)
    by (eapply (reach_add queued2 MiningSender "B" (f32_of_Z 1) None None true);
        [exact H2|vm_compute; reflexivity]).
  eapply (reach_mine queued3 1 1700000000000000900 true);
    [exact H3|vm_compute; reflexivity].
Qed.

(** C1 at work: the block mined on the new ledger holds the hash of the
    genesis block. *)
Lemma chain_integrity_witness :
  exists b b',
    nth_error (chain (ledger mined)) 0 = Some b /\
    nth_error (chain (ledger mined)) 1 = Some b' /\
    previousHash b' = Hash (heap mined) b.
Proof.
  do 2 eexists. split; [reflexivity|]. split; [reflexivity|].
  apply (chain_integrity (go := libraries) mined 0);
    [exact mined_reachable|reflexivity|reflexivity].
Defined.

(** C2 at work: the mined block passes [ValidProof]. *)
Lemma mined_block_valid_proof_witness :
  exists b,
    nth_error (chain (ledger mined)) 1 = Some b /\
    ValidProof (heap mined) (nonce b) (previousHash b) (transactions b)
      MiningDifficulty = Ok true /\
    substring 0 3
      (Sprintf_x (Hash (heap mined) {| timestamp := 0; nonce := nonce b;
                                       previousHash := previousHash b;
                                       transactions := transactions b |})) = "000".
Proof.
  eexists. split; [reflexivity|].
  apply (mined_block_valid_proof (go := libraries) SHA256_Sum256_size mined 0);
    [exact mined_reachable|reflexivity].
Defined.

Lemma pending_least_nonce :
  least_nonce (heap pending ++ [reward created])
    (Hash (heap pending ++ [reward created]) genesis)
    (Some (seq (List.length (heap pending)) (List.length [reward created]))) 1.
Proof.
  split; [lia|]. split; [vm_compute; reflexivity|].
  intros m Hm. assert (m = 0) as -> by lia. vm_compute. reflexivity.
Qed.

(** C3 at work: [ProofOfWork] returns [1], the least accepted nonce. *)
Lemma ProofOfWork_least_nonce_witness : ProofOfWork 2 pending = Ok (1, copied).
Proof.
  pose proof (ProofOfWork_least_nonce (go := libraries) pending
                [reward created] [] genesis eq_refl eq_refl) as H.
  cbv zeta in H. destruct H as (Hfinds & _).
  refine (Hfinds 1 pending_least_nonce _ 2%nat _).
  - unfold max_int. lia.
  - cbn. lia.
Defined.

(** C4 at work: the reward is queued with no key and no signature, the
    signed transfer is queued, the forged one is turned down. *)
Lemma AddTransaction_signature_gate_witness :
  (exists w', AddTransaction MiningSender "A" MiningReward None None mined
              = Ok (true, w') /\
              transactionPool (ledger w') = Some [2%nat]) /\
  (exists w', AddTransaction "A" "B" (f32_of_Z 1) (Some key) (Some signed) mined
              = Ok (true, w') /\
              transactionPool (ledger w') = Some [2%nat]) /\
  (exists w', AddTransaction "A" "B" (f32_of_Z 1) (Some key) (Some forged) mined
              = Ok (false, w') /\
              transactionPool (ledger w') = Some []).
Proof.
  split; [|split].
  - destruct (proj1 (AddTransaction_signature_gate (go := libraries)
                       MiningSender "A" MiningReward None None mined) eq_refl)
      as (w' & H & Hq & _).
    exists w'. split; [exact H|exact Hq].
  - destruct (proj1 (proj2 (AddTransaction_signature_gate (go := libraries)
                       "A" "B" (f32_of_Z 1) (Some key) (Some signed) mined)))
      as (w' & H & Hq & _);
      [discriminate|vm_compute; reflexivity|].
    exists w'. split; [exact H|exact Hq].
  - destruct (proj2 (proj2 (AddTransaction_signature_gate (go := libraries)
                       "A" "B" (f32_of_Z 1) (Some key) (Some forged) mined)))
      as (w' & H & Hq & _);
      [discriminate|vm_compute; reflexivity|].
    exists w'. split; [exact H|exact Hq].
Defined.

(** C6 refuted: on the ledger [books] the balance of the mining sender is
    [-2]; what it received minus what it sent is [-2.5], and [0] if each
    sum is taken in [float32]. *)
Lemma CalculateTotalAmount_rounds :
  reachable books /\
  loads (heap books) (chain_pointers (chain (ledger books))) = Some entries /\
  exists total,
    CalculateTotalAmount MiningSender books = Ok total /\
    total <> f32_balance MiningSender entries /\
    f32_units total <> Some (exact_balance MiningSender entries) /\
    total = f32_of_Z (-2) /\
    f32_units total = Some (-4 * 2 ^ 148) /\
    exact_balance MiningSender entries = -5 * 2 ^ 148 /\
    f32_balance MiningSender entries = f32_zero.
Proof.
  split; [exact books_reachable|]. split; [reflexivity|].
  exists (f32_of_Z (-2)).
  split; [vm_compute; reflexivity|].
  split; [vm_compute; discriminate|].
  split; [vm_compute; discriminate|].
  repeat split; vm_compute; reflexivity.
Qed.

(** C6 at work: on the mined ledger nothing rounds, and the balance of [A]
    is the reward, one unit. *)
Lemma CalculateTotalAmount_running_total_witness :
  CalculateTotalAmount "A" mined = Ok (f32_of_Z 1) /\
  f32_units (f32_of_Z 1) = Some (exact_balance "A" [reward created]).
Proof.
  destruct (CalculateTotalAmount_running_total "A" mined [reward created] eq_refl)
    as (Htotal & Hexact).
  split; [exact Htotal|]. apply Hexact. vm_compute. reflexivity.
Defined.

(** C7 refuted: with a key and no signature, verification panics, and so
    does [AddTransaction]. *)
Lemma nil_signature_panics :
  VerifyTransactionSignature (Some key) None 0%nat mined = Panic NilDereference /\
  AddTransaction "A" "B" (f32_of_Z 1) (Some key) None mined = Panic NilDereference.
Proof. split; reflexivity. Qed.

(** C7 at work: with the signature, [AddTransaction] returns what
    [ECDSA.Verify] does. *)
Lemma VerifyTransactionSignature_outcome_witness :
  (exists w', AddTransaction "A" "B" (f32_of_Z 1) (Some key) (Some signed) mined
              = Ok (true, w')) /\
  AddTransaction "A" "B" (f32_of_Z 1) (Some key) None mined = Panic NilDereference.
Proof.
  destruct (VerifyTransactionSignature_outcome (go := libraries) (Some key) mined)
    as (_ & Hnil & _ & _ & Hsig & _).
  split.
  - apply (Hsig "A" "B" (f32_of_Z 1) signed true);
      [discriminate|vm_compute; reflexivity].
  - apply Hnil. discriminate.
Defined.

(** C8 at work: nonce [1] is accepted, so the search, [ProofOfWork] and
    [Mining] return. *)
Lemma ProofOfWork_terminates_witness :
  exists n,
    n <= 1 /\
    ProofOfWork 2 pending = Ok (n, copied) /\
    exists w', Mining 2 1700000000000002300 created = Ok (true, w').
Proof.
  pose proof (ProofOfWork_terminates (go := libraries) SHA256_Sum256_size
                pending [reward created] [] genesis 1 eq_refl eq_refl) as H.
  cbv zeta in H.
  destruct H as (n & Hleast & Hle & _ & Hpow & Hmining & _).
  - unfold max_int. lia.
  - exact (proj1 (proj2 pending_least_nonce)).
  - exists n. split; [exact Hle|].
    assert (Hn : (Z.to_nat n < 2)%nat) by (destruct Hleast as (H0 & _); lia).
    split; [exact (Hpow 2%nat Hn)|].
    exact (Hmining created 2%nat 1700000000000002300 eq_refl Hn).
Defined.

(** C9 at work: [ProofOfWork] leaves the ledger with the reward pending as
    it was. *)
Lemma ProofOfWork_read_only_witness :
  ledger copied = ledger pending /\
  exists copy, CopyTransactionPool pending = Ok (Some copy, copied) /\ NoDup copy.
Proof.
  assert (Hwf : wf pending) by (split; cbn; repeat constructor).
  destruct (ProofOfWork_read_only (go := libraries) 2 pending 1 copied Hwf)
    as (Hledger & _ & copy & last & Hcopy & _ & _ & _ & Hnodup & _);
    [vm_compute; reflexivity|].
  split; [exact Hledger|]. exists copy. split; [exact Hcopy|exact Hnodup].
Defined.

(** C10 at work: queuing the reward leaves the balance of [A] at one unit. *)
Lemma pending_transactions_do_not_count_witness :
  chain (ledger (rewarded mined)) = chain (ledger mined) /\
  CalculateTotalAmount "A" (rewarded mined) = CalculateTotalAmount "A" mined.
Proof.
  assert (Hwf : wf mined) by (split; cbn; repeat constructor; cbn; lia).
  destruct (pending_transactions_do_not_count (go := libraries)
              MiningSender "A" MiningReward None None
              mined (rewarded mined) "A" Hwf eq_refl)
    as (Hchain & _ & _ & _ & _ & Htotal).
  split; [exact Hchain|exact Htotal].
Defined.

Lemma created_wf : wf created.
Proof. split; cbn; repeat constructor. Qed.

Lemma queued3_wf : wf queued3.
Proof. split; cbn; repeat constructor; cbn; lia. Qed.

Lemma books_ok : Mining 1 1700000000000000900 queued3 = Ok (true, books).
Proof. vm_compute. reflexivity. Qed.

Lemma poisoned_does_not_encode (n : Z) :
  json_Marshal
    (Block_json (heap poisoned ++ heap poisoned)
       {| timestamp := 0; nonce := n;
          previousHash := Hash (heap poisoned ++ heap poisoned) genesis;
          transactions := Some (seq (List.length (heap poisoned))
                                  (List.length (heap poisoned))) |}) = None.
Proof. vm_compute. reflexivity. Qed.

(** X1 at work: the mined ledger ends in a block, which [LastBlock]
    returns. *)
Lemma LastBlock_of_reachable_witness :
  exists c b, chain (ledger mined) = c ++ [b] /\ LastBlock mined = Ok (b, mined).
Proof.
  exact (LastBlock_of_reachable (go := libraries) mined mined_reachable).
Defined.

(** X2 at work: mining on the new ledger appends one block, stamped with
    the time of the call, and empties the pool. *)
Lemma Mining_seals_one_block_witness :
  exists block,
    chain (ledger mined) = chain (ledger created) ++ [block] /\
    timestamp block = 1700000000000002300 /\
    transactionPool (ledger mined) = Some [].
Proof.
  destruct (Mining_seals_one_block (go := libraries) 2 1700000000000002300
              created true mined created_wf mined_ok)
    as (block & c & last & _ & Hc & Ht & _ & _ & _ & Hp & _).
  exists block. split; [exact Hc|]. split; [exact Ht|exact Hp].
Defined.

(** X3 at work: the genesis block is the first block of the mined ledger
    too, with the hash it had. *)
Lemma history_is_append_only_witness :
  (exists blocks, chain (ledger mined) = chain (ledger created) ++ blocks) /\
  (exists txs, heap mined = heap created ++ txs) /\
  nth_error (chain (ledger mined)) 0 = Some genesis /\
  Hash (heap mined) genesis = Hash (heap created) genesis.
Proof.
  assert (He : evolves created mined)
    by (eapply (evolves_mine created created 2 1700000000000002300 true);
        [apply evolves_refl|exact mined_ok]).
  destruct (history_is_append_only (go := libraries) created mined
              created_reachable He) as (Hc & Hh & Hb).
  split; [exact Hc|]. split; [exact Hh|].
  exact (Hb 0%nat genesis eq_refl).
Defined.

(** X4 at work: the balance of [B] on the ledger [books]. *)
Lemma CalculateTotalAmount_of_reachable_witness :
  exists total, CalculateTotalAmount "B" books = Ok total.
Proof.
  exact (CalculateTotalAmount_of_reachable (go := libraries) "B" books books_reachable).
Defined.

(** X5 at work: no transaction of [books] names [C]. *)
Lemma stranger_has_zero_balance_witness :
  CalculateTotalAmount "C" books = Ok f32_zero.
Proof.
  apply (stranger_has_zero_balance "C" books entries eq_refl).
  repeat (apply Forall_cons; [split; discriminate|]). apply Forall_nil.
Defined.

(** X6 at work: the balances on the mined ledger. *)
Lemma first_mining_pays_the_reward_witness :
  CalculateTotalAmount "A" mined = Ok MiningReward /\
  CalculateTotalAmount MiningSender mined = Ok (f32_of_Z (-1)) /\
  CalculateTotalAmount "B" mined = Ok f32_zero.
Proof.
  destruct (first_mining_pays_the_reward (go := libraries)
              1700000000000002251 "A" 5000 [] created 2 1700000000000002300
              true mined created_ok mined_ok)
    as (Ha & Hm & Hother); [discriminate|].
  split; [exact Ha|]. split; [exact Hm|].
  apply Hother; discriminate.
Defined.


(** X8 at work: nonce [1], accepted when mining on the new ledger, is
    accepted at difficulty [2]. *)
Lemma ValidProof_at_lower_difficulty_witness :
  ValidProof (heap pending ++ [reward created]) 1
    (Hash (heap pending ++ [reward created]) genesis)
    (Some (seq (List.length (heap pending)) (List.length [reward created]))) 2
  = Ok true.
Proof.
  apply (ValidProof_at_lower_difficulty (go := libraries)
           (heap pending ++ [reward created]) 1
           (Hash (heap pending ++ [reward created]) genesis)
           (Some (seq (List.length (heap pending)) (List.length [reward created])))
           3 2); [lia|].
  exact (proj1 (proj2 pending_least_nonce)).
Defined.

(** X9 at work: with a transaction of value NaN pending, the search of
    [ProofOfWork] is still running after a thousand nonces, as after any
    number of them. *)
Lemma ProofOfWork_without_encoding_witness :
  ProofOfWork 1000 poisoned = Timeout.
Proof.
  pose proof (ProofOfWork_without_encoding (go := libraries) poisoned
                (heap poisoned) [] genesis eq_refl eq_refl) as H.
  cbv zeta in H.
  destruct (H poisoned_does_not_encode) as (_ & _ & Hnever).
  apply Hnever. vm_compute. reflexivity.
Defined.

(** X10 at work: the transfer submitted twice is pending twice. *)
Lemma AddTransaction_keeps_duplicates_witness :
  transactionPool (ledger twice2) = Some [2%nat; 3%nat] /\
  deref (heap twice2) 2%nat = deref (heap twice2) 3%nat.
Proof.
  pose proof (AddTransaction_keeps_duplicates (go := libraries)
                MiningSender "B" (f32_of_Z 1) None None mined twice1 twice2
                eq_refl eq_refl) as H.
  cbv zeta in H. destruct H as (Hp & H2 & H3).
  split; [exact Hp|]. exact (eq_trans H2 (eq_sym H3)).
Defined.

(** X11 at work: queuing the reward leaves the JSON of the mined ledger as
    it was. *)
Lemma MarshalJSON_leaves_out_the_pool_witness :
  Blockchain_MarshalJSON (rewarded mined) = Blockchain_MarshalJSON mined.
Proof.
  assert (Hwf : wf mined) by (split; cbn; repeat constructor; cbn; lia).
  exact (proj2 (MarshalJSON_leaves_out_the_pool (go := libraries)
                  MiningSender "A" MiningReward None None
                  mined true (rewarded mined) Hwf eq_refl)).
Defined.

(** X12 at work: the copy of the pool with the reward pending. *)
Lemma CopyTransactionPool_of_wf_witness :
  exists copy w',
    CopyTransactionPool pending = Ok (Some copy, w') /\
    ledger w' = ledger pending /\
    loads (heap w') copy
    = loads (heap pending) (elems (transactionPool (ledger pending))) /\
    (elems (transactionPool (ledger pending)) = [] -> copy = [] /\ w' = pending).
Proof.
  assert (Hwf : wf pending) by (split; cbn; repeat constructor).
  exact (CopyTransactionPool_of_wf pending Hwf).
Defined.

(** X13 at work: [Mining] on the new ledger with a budget of two nonces. *)
Lemma Mining_of_reachable_witness :
  (exists w', Mining 2 1700000000000002300 created = Ok (true, w')) \/
  Mining 2 1700000000000002300 created = Timeout.
Proof.
  exact (Mining_of_reachable (go := libraries) SHA256_Sum256_size
           2 1700000000000002300 created created_reachable).
Defined.

(** X14 at work: the transactions of [books]. *)
Lemma no_transaction_is_held_twice_witness :
  NoDup (held books) /\ Forall (allocated (heap books)) (held books).
Proof.
  exact (no_transaction_is_held_twice (go := libraries) books books_reachable).
Defined.

(** X15 at work: the balance of [B] once the three pending transfers are
    mined. *)
Lemma Mining_settles_the_pool_witness :
  exists before txs,
    CalculateTotalAmount "B" queued3 = Ok before /\
    loads (heap queued3) (elems (transactionPool (ledger queued3))) = Some txs /\
    CalculateTotalAmount "B" books
    = Ok (fold_left (tally "B") (txs ++ [reward queued3]) before).
Proof.
  exact (Mining_settles_the_pool (go := libraries) 1 1700000000000000900
           queued3 true books "B" queued3_wf books_ok).
Defined.

End Examples.
